(** * SingleLinkedList<Type>: a shallow embedding of single-linked-list.h

    The container is a chain of heap nodes hanging off a sentinel node
    [head_] that is a member of the list object.  Iterators are bare node
    pointers, and a position may point at the sentinel itself
    ([before_begin]), so the model keeps an explicit store in which list
    objects and heap nodes live side by side and a [Node*] may address
    either of them. *)

From stdpp Require Import gmap list.
From Stdlib Require Import ZArith.

Local Open Scope Z_scope.

(** ** Machine integers *)

(** [size_t] is taken to be 64 bits wide; [++] and [--] wrap around. *)
Definition size_t_bits : Z := 64.
Definition size_t_wrap (z : Z) : Z := z mod 2 ^ size_t_bits.

(** ** The store *)

(** Addresses of objects.  A null pointer is [None]. *)
Definition addr : Type := positive.
Bind Scope positive_scope with addr.
Definition ptr : Type := option addr.

Section Model.

(** The element type of the template, with the value a default-constructed
    element has (the sentinel holds one and never shows it), its
    [operator==] and its [operator<]. *)
Context {Type_ : Type}.
Variable Type_default : Type_.
Variable Type_eqb : Type_ → Type_ → bool.
Variable Type_ltb : Type_ → Type_ → bool.

(** struct Node { Type value; Node* next_node = nullptr; } *)
Record Node : Type := mkNode { value : Type_; next_node : ptr }.

(** The data members of the class: Node head_ = {}; size_t size_ = 0; *)
Record SingleLinkedList : Type := mkList { head_ : Node; size_ : Z }.

(** What lives at an address: a node made by [new Node], or a list object.
    The sentinel [head_] is the first member of the list object, so
    [&head_] is the address of the list object itself. *)
Inductive Obj : Type :=
| ONode (n : Node)
| OList (l : SingleLinkedList).

Abbreviation Store := (gmap addr Obj).

(** ** A state monad with failure

    [None] stands for everything the C++ program must not do: following a
    null or dangling pointer, a failed [assert], running out of loop fuel. *)
Definition M (A : Type) : Type := Store → option (A * Store).

Definition ret {A} (a : A) : M A := λ m, Some (a, m).
Definition fail {A} : M A := λ _, None.
Definition bind {A B} (c : M A) (k : A → M B) : M B :=
  λ m, match c m with
       | Some (a, m') => k a m'
       | None => None
       end.

Notation "'do' x <- c ; k" := (bind c (λ x, k))
  (at level 10, x name, c at level 100, k at level 200).
Notation "c ;; k" := (bind c (λ _, k))
  (at level 100, k at level 200, right associativity).

Definition assert (b : bool) : M unit := if b then ret tt else fail.

(** Reading a node through a [Node*]: a heap node, or the sentinel of the
    list object at that address. *)
Definition node_at (o : Obj) : Node :=
  match o with
  | ONode n => n
  | OList l => head_ l
  end.

Definition with_next (nx : ptr) (o : Obj) : Obj :=
  match o with
  | ONode n => ONode (mkNode (value n) nx)
  | OList l => OList (mkList (mkNode (value (head_ l)) nx) (size_ l))
  end.

(** p->value, p->next_node, p->next_node = nx *)
Definition get_value (p : ptr) : M Type_ :=
  λ m, match p with
       | Some a => match m !! a with
                   | Some o => Some (value (node_at o), m)
                   | None => None
                   end
       | None => None
       end.

Definition get_next (p : ptr) : M ptr :=
  λ m, match p with
       | Some a => match m !! a with
                   | Some o => Some (next_node (node_at o), m)
                   | None => None
                   end
       | None => None
       end.

Definition set_next (p : ptr) (nx : ptr) : M unit :=
  λ m, match p with
       | Some a => match m !! a with
                   | Some o => Some (tt, <[a := with_next nx o]> m)
                   | None => None
                   end
       | None => None
       end.

(** Members of the list object at [this]: head_.next_node and size_,
    read and written. *)
Definition get_head_next (this : addr) : M ptr :=
  λ m, match m !! this with
       | Some (OList l) => Some (next_node (head_ l), m)
       | _ => None
       end.

Definition set_head_next (this : addr) (nx : ptr) : M unit :=
  λ m, match m !! this with
       | Some (OList l) => Some (tt, <[this := with_next nx (OList l)]> m)
       | _ => None
       end.

Definition get_size (this : addr) : M Z :=
  λ m, match m !! this with
       | Some (OList l) => Some (size_ l, m)
       | _ => None
       end.

Definition set_size (this : addr) (z : Z) : M unit :=
  λ m, match m !! this with
       | Some (OList l) => Some (tt, <[this := OList (mkList (head_ l) z)]> m)
       | _ => None
       end.

(** new Node(v, nx): the node goes to an address nothing lives at. *)
Definition new_Node (v : Type_) (nx : ptr) : M ptr :=
  λ m, let a := fresh (dom m) in Some (Some a, <[a := ONode (mkNode v nx)]> m).

(** delete p: only a live heap node can be deleted. *)
Definition delete_Node (p : ptr) : M unit :=
  λ m, match p with
       | Some a => match m !! a with
                   | Some (ONode _) => Some (tt, delete a m)
                   | _ => None
                   end
       | None => None
       end.

(** Storage for a list object whose members have their default
    initialisers (head_ = {}, size_ = 0), at an address nothing lives at;
    and the release of that storage at the end of the object's life. *)
Definition new_object : M addr :=
  λ m, let a := fresh (dom m) in
       Some (a, <[a := OList (mkList (mkNode Type_default None) 0)]> m).

Definition release_object (this : addr) : M unit :=
  λ m, match m !! this with
       | Some (OList _) => Some (tt, delete this m)
       | _ => None
       end.

(** ** Iterators *)

(** What the template parameter [It] of [MakeList] and the iterator
    arguments of the standard algorithms have to offer. *)
Class InputIterator (It : Type) : Type := {
  it_eqb : It → It → bool;     (* it1 == it2; it1 != it2 is its negation *)
  it_deref : It → M Type_;     (* dereference *)
  it_incr : It → M It          (* ++it, giving the advanced iterator *)
}.

(** BasicIterator<ValueType>: one private member, Node* node_ = nullptr.
    Iterator and ConstIterator differ only in the constness of the
    reference they hand out, which the model does not track. *)
Record BasicIterator : Type := mkIt { node_ : ptr }.

Definition iter_eqb (lhs rhs : BasicIterator) : bool :=
  bool_decide (node_ lhs = node_ rhs).

Definition iter_neqb (lhs rhs : BasicIterator) : bool :=
  negb (bool_decide (node_ lhs = node_ rhs)).

(** operator++(): the iterator is a local value, so the advanced iterator
    is returned. *)
Definition iter_incr (it : BasicIterator) : M BasicIterator :=
  match node_ it with
  | Some a => do nx <- get_next (Some a); ret (mkIt nx)
  | None => ret it
  end.

(** operator++(int): the old value, and the advanced iterator. *)
Definition iter_post_incr (it : BasicIterator) : M (BasicIterator * BasicIterator) :=
  let old_it := it in
  do it' <- iter_incr it;
  ret (old_it, it').

(** The dereference operator. *)
Definition iter_deref (it : BasicIterator) : M Type_ :=
  assert (bool_decide (node_ it ≠ None));;
  get_value (node_ it).

#[export] Instance BasicIterator_InputIterator : InputIterator BasicIterator :=
  {| it_eqb := iter_eqb; it_deref := iter_deref; it_incr := iter_incr |}.

(** The iterators of a std::initializer_list<Type> are pointers into its
    backing array: the array and an index into it. *)
Record ArrayIterator : Type := mkArrIt { arr : list Type_; idx : nat }.

#[export] Instance ArrayIterator_InputIterator : InputIterator ArrayIterator :=
  {| it_eqb := λ i j, bool_decide (idx i = idx j);
     it_deref := λ i, match arr i !! idx i with
                      | Some v => ret v
                      | None => fail
                      end;
     it_incr := λ i, ret (mkArrIt (arr i) (S (idx i))) |}.

Definition il_begin (values : list Type_) : ArrayIterator := mkArrIt values 0.
Definition il_end (values : list Type_) : ArrayIterator := mkArrIt values (length values).
Definition il_size (values : list Type_) : Z := Z.of_nat (length values).

(** ** The member functions *)

Definition begin (this : addr) : M BasicIterator :=
  do nx <- get_head_next this; ret (mkIt nx).

Definition end_ : BasicIterator := mkIt None.

Definition cbegin (this : addr) : M BasicIterator :=
  do nx <- get_head_next this; ret (mkIt nx).

Definition cend : BasicIterator := mkIt None.

Definition before_begin (this : addr) : BasicIterator := mkIt (Some this).

Definition cbefore_begin (this : addr) : BasicIterator := mkIt (Some this).

Definition PushFront (this : addr) (v : Type_) : M unit :=
  do old <- get_head_next this;
  do n <- new_Node v old;
  set_head_next this n;;
  do sz <- get_size this;
  set_size this (size_t_wrap (sz + 1)).

Definition InsertAfter (this : addr) (pos : BasicIterator) (v : Type_) : M BasicIterator :=
  if iter_eqb pos (cbefore_begin this) then
    PushFront this v;;
    do sz <- get_size this;
    set_size this (size_t_wrap (sz + 1));;
    begin this
  else
    do nx <- get_next (node_ pos);
    do new_node <- new_Node v nx;
    set_next (node_ pos) new_node;;
    do sz <- get_size this;
    set_size this (size_t_wrap (sz + 1));;
    ret (mkIt new_node).

Definition EraseAfter (this : addr) (pos : BasicIterator) : M BasicIterator :=
  assert (bool_decide (node_ pos ≠ None));;
  do to_delete_node <- get_next (node_ pos);
  do nx <- get_next to_delete_node;
  set_next (node_ pos) nx;;
  delete_Node to_delete_node;;
  do sz <- get_size this;
  set_size this (size_t_wrap (sz - 1));;
  do nx' <- get_next (node_ pos);
  ret (mkIt nx').

Definition PopFront (this : addr) : M unit :=
  do sz <- get_size this;
  assert (bool_decide (sz > 0));;
  do first <- get_head_next this;
  do tmp <- get_next first;
  delete_Node first;;
  set_head_next this tmp;;
  do sz <- get_size this;
  set_size this (size_t_wrap (sz - 1)).

(** The loop of Clear, one unit of fuel per test of its condition. *)
Fixpoint Clear_loop (fuel : nat) (this : addr) : M unit :=
  match fuel with
  | O => fail
  | S fuel' =>
      do first <- get_head_next this;
      match first with
      | None => ret tt
      | Some _ =>
          do tmp <- get_next first;
          delete_Node first;;
          set_head_next this tmp;;
          Clear_loop fuel' this
      end
  end.

Definition Clear (fuel : nat) (this : addr) : M unit :=
  Clear_loop fuel this;;
  set_size this 0.

Definition swap (this other : addr) : M unit :=
  do next_node <- get_head_next this;
  do t_size <- get_size this;
  do osz <- get_size other;
  set_size this osz;;
  do onx <- get_head_next other;
  set_head_next this onx;;
  set_size other t_size;;
  set_head_next other next_node.

Definition IsEmpty (this : addr) : M bool :=
  do sz <- get_size this; ret (bool_decide (sz = 0)).

Definition GetSize (this : addr) : M Z := get_size this.

(** MakeList: the first loop fills the stack (top of the stack at the head
    of the list), the second pushes its elements to the front. *)
Fixpoint MakeList_fill `{InputIterator It} (fuel : nat) (it end_it : It)
    (tmp : list Type_) : M (list Type_) :=
  match fuel with
  | O => fail
  | S fuel' =>
      if negb (it_eqb it end_it) then
        do v <- it_deref it;
        do it' <- it_incr it;
        MakeList_fill fuel' it' end_it (v :: tmp)
      else ret tmp
  end.

Fixpoint MakeList_drain (this : addr) (tmp : list Type_) : M unit :=
  match tmp with
  | [] => ret tt
  | top :: tmp' => PushFront this top;; MakeList_drain this tmp'
  end.

Definition MakeList `{InputIterator It} (fuel : nat) (this : addr)
    (start end_it : It) : M unit :=
  do tmp <- MakeList_fill fuel start end_it [];
  MakeList_drain this tmp.

(** The constructors give back the address of the object they made. *)
Definition ctor_default : M addr := new_object.

Definition ctor_initializer_list (fuel : nat) (values : list Type_) : M addr :=
  do this <- new_object;
  MakeList fuel this (il_begin values) (il_end values);;
  set_size this (il_size values);;
  ret this.

Definition ctor_copy (fuel : nat) (other : addr) : M addr :=
  do this <- new_object;
  do first <- begin other;
  MakeList fuel this first end_;;
  do sz <- get_size other;
  set_size this sz;;
  ret this.

Definition dtor (fuel : nat) (this : addr) : M unit :=
  Clear fuel this;;
  release_object this.

(** operator=: [rhs_copy] is a local, destroyed when its block ends. *)
Definition assign (fuel : nat) (this rhs : addr) : M addr :=
  if bool_decide (this ≠ rhs) then
    do rhs_copy <- ctor_copy fuel rhs;
    swap this rhs_copy;;
    dtor fuel rhs_copy;;
    ret this
  else ret this.

(** ** The standard algorithms behind the comparison operators

    std::equal and std::lexicographical_compare over two ranges of forward
    iterators, as the C++ standard defines them: both walk the two ranges
    in step until one of them ends. *)
Fixpoint std_equal `{InputIterator It} (fuel : nat) (first1 last1 first2 last2 : It)
    : M bool :=
  match fuel with
  | O => fail
  | S fuel' =>
      if negb (it_eqb first1 last1) && negb (it_eqb first2 last2) then
        do x <- it_deref first1;
        do y <- it_deref first2;
        if negb (Type_eqb x y) then ret false
        else
          do first1' <- it_incr first1;
          do first2' <- it_incr first2;
          std_equal fuel' first1' last1 first2' last2
      else ret (it_eqb first1 last1 && it_eqb first2 last2)
  end.

Fixpoint std_lexicographical_compare `{InputIterator It} (fuel : nat)
    (first1 last1 first2 last2 : It) : M bool :=
  match fuel with
  | O => fail
  | S fuel' =>
      if negb (it_eqb first1 last1) && negb (it_eqb first2 last2) then
        do x <- it_deref first1;
        do y <- it_deref first2;
        if Type_ltb x y then ret true
        else if Type_ltb y x then ret false
        else
          do first1' <- it_incr first1;
          do first2' <- it_incr first2;
          std_lexicographical_compare fuel' first1' last1 first2' last2
      else ret (it_eqb first1 last1 && negb (it_eqb first2 last2))
  end.

Definition list_eq (fuel : nat) (lhs rhs : addr) : M bool :=
  do b1 <- begin lhs;
  do b2 <- begin rhs;
  std_equal fuel b1 end_ b2 end_.

Definition list_ne (fuel : nat) (lhs rhs : addr) : M bool :=
  do b <- list_eq fuel lhs rhs; ret (negb b).

Definition list_lt (fuel : nat) (lhs rhs : addr) : M bool :=
  do b1 <- begin lhs;
  do b2 <- begin rhs;
  std_lexicographical_compare fuel b1 end_ b2 end_.

Definition list_gt (fuel : nat) (lhs rhs : addr) : M bool :=
  list_lt fuel rhs lhs.

Definition list_le (fuel : nat) (lhs rhs : addr) : M bool :=
  do lt <- list_lt fuel lhs rhs;
  if lt then ret true else list_eq fuel lhs rhs.

Definition list_ge (fuel : nat) (lhs rhs : addr) : M bool :=
  do gt <- list_gt fuel lhs rhs;
  if gt then ret true else list_eq fuel lhs rhs.

(** Walking the list the way a range-for does:
    from begin() up to end(), dereferencing and then incrementing. *)
Fixpoint iterate (fuel : nat) (it : BasicIterator) : M (list Type_) :=
  match fuel with
  | O => fail
  | S fuel' =>
      if iter_neqb it end_ then
        do v <- iter_deref it;
        do it' <- iter_incr it;
        do vs <- iterate fuel' it';
        ret (v :: vs)
      else ret []
  end.

Definition contents (fuel : nat) (this : addr) : M (list Type_) :=
  do first <- begin this; iterate fuel first.

(** ** What a store holds: list segments and list objects *)

(** [lseg m p cs q]: following next_node from [p] passes exactly through
    the heap nodes [cs] (address and value of each, in order) and arrives
    at [q]. *)
Fixpoint lseg (m : Store) (p : ptr) (cs : list (addr * Type_)) (q : ptr) : Prop :=
  match cs with
  | [] => p = q
  | c :: cs' =>
      p = Some c.1 ∧
      ∃ nx, m !! c.1 = Some (ONode (mkNode c.2 nx)) ∧ lseg m nx cs' q
  end.

(** [is_list m this cs sz]: at [this] lives a list object whose stored
    size is [sz] and whose sentinel leads through the nodes [cs] to the
    null pointer. *)
Definition is_list (m : Store) (this : addr) (cs : list (addr * Type_)) (sz : Z) : Prop :=
  ∃ hv hn, m !! this = Some (OList (mkList (mkNode hv hn) sz)) ∧ lseg m hn cs None.

(** The position an insertion or erasure after the nodes [before] of a
    list is anchored at: the last of them, or the sentinel when there is
    none. *)
Definition anchor (this : addr) (before : list (addr * Type_)) : ptr :=
  Some (default this (last before.*1)).

(** The pointer to the first node of a run of nodes, null when it is empty. *)
Definition first_of (cs : list (addr * Type_)) : ptr := head cs.*1.

(** The size invariant of the specification. *)
Definition size_matches (cs : list (addr * Type_)) (sz : Z) : Prop :=
  sz = Z.of_nat (length cs).

(** ** The comparison operators, on sequences of values *)

(** What the two standard algorithms compute, on the sequences of values
    the two ranges hold. *)
Fixpoint equal_values (xs ys : list Type_) : bool :=
  match xs, ys with
  | [], [] => true
  | x :: xs', y :: ys' => Type_eqb x y && equal_values xs' ys'
  | _, _ => false
  end.

Fixpoint less_values (xs ys : list Type_) : bool :=
  match xs, ys with
  | [], [] => false
  | [], _ :: _ => true
  | _ :: _, [] => false
  | x :: xs', y :: ys' =>
      if Type_ltb x y then true
      else if Type_ltb y x then false
      else less_values xs' ys'
  end.

(** The lexicographic order of the specification: at the first position
    where the two sequences hold elements that the element order tells
    apart, the smaller element decides; where no position decides, the
    sequence that ends first, a strict prefix of the other, is the
    smaller one. *)
Inductive lexicographic_lt : list Type_ → list Type_ → Prop :=
| lex_prefix y ys : lexicographic_lt [] (y :: ys)
| lex_less x xs y ys :
    Type_ltb x y = true → lexicographic_lt (x :: xs) (y :: ys)
| lex_next x xs y ys :
    Type_ltb x y = false → Type_ltb y x = false →
    lexicographic_lt xs ys → lexicographic_lt (x :: xs) (y :: ys).

End Model.

Arguments Node : clear implicits.
Arguments SingleLinkedList : clear implicits.
Arguments Obj : clear implicits.
Arguments M : clear implicits.

(** ** Example stores, over lists of integers *)

(** An empty list object at address 1. *)
Definition store_empty_list : gmap addr (Obj Z) :=
  {[ 1%positive := OList (mkList (mkNode 0 None) 0) ]}.

(** The list 1, 2, 3 at address 1, its nodes at addresses 2, 3 and 4. *)
Definition store_123 : gmap addr (Obj Z) :=
  <[1%positive := OList (mkList (mkNode 0 (Some 2%positive)) 3)]>
  (<[2%positive := ONode (mkNode 1 (Some 3%positive))]>
  (<[3%positive := ONode (mkNode 2 (Some 4%positive))]>
  (<[4%positive := ONode (mkNode 3 None)]> ∅))).

Definition nodes_123 : list (addr * Z) :=
  [(2%positive, 1); (3%positive, 2); (4%positive, 3)].

(** The list 1, 2 at address 1 and the list 1, 2, 3 at address 4. *)
Definition store_two_lists : gmap addr (Obj Z) :=
  <[1%positive := OList (mkList (mkNode 0 (Some 2%positive)) 2)]>
  (<[2%positive := ONode (mkNode 1 (Some 3%positive))]>
  (<[3%positive := ONode (mkNode 2 None)]>
  (<[4%positive := OList (mkList (mkNode 0 (Some 5%positive)) 3)]>
  (<[5%positive := ONode (mkNode 1 (Some 6%positive))]>
  (<[6%positive := ONode (mkNode 2 (Some 7%positive))]>
  (<[7%positive := ONode (mkNode 3 None)]> ∅)))))).

Definition nodes_12 : list (addr * Z) := [(2%positive, 1); (3%positive, 2)].
Definition nodes_123' : list (addr * Z) :=
  [(5%positive, 1); (6%positive, 2); (7%positive, 3)].

(** Closed goals about the example stores are settled by evaluation; a
    list is shown to be represented by naming the sentinel's value and
    link and reading the nodes off the store one by one. *)
Ltac by_evaluation := vm_compute; reflexivity.

Ltac show_is_list hv hn :=
  exists hv, hn; split; [by_evaluation|];
  simpl; repeat (split; [reflexivity|]; eexists; split; [by_evaluation|]);
  reflexivity.

(** * Properties *)

Section Properties.

Context {Type_ : Type}.
Variable Type_default : Type_.
Variable Type_eqb : Type_ → Type_ → bool.
Variable Type_ltb : Type_ → Type_ → bool.

Abbreviation Store := (gmap addr (Obj Type_)).

Implicit Types (m : Store) (this other lhs rhs : addr).
Implicit Types (cs l : list (addr * Type_)).
Implicit Types (v w : Type_) (vs xs ys tmp values : list Type_) (sz : Z).

Lemma bind_Some {A B} (c : M Type_ A) (k : A → M Type_ B) m a m' :
  c m = Some (a, m') → bind c k m = k a m'.
Proof. intros Hc. unfold bind. by rewrite Hc. Qed.

Lemma lseg_first m p cs q : lseg m p cs q → cs ≠ [] → p = first_of cs.
Proof. destruct cs as [|[a v] cs]; [done|]. by intros [-> _] _. Qed.

Lemma lseg_null_first m p cs : lseg m p cs None → p = first_of cs.
Proof. destruct cs as [|[a v] cs]; [done|]. by intros [-> _]. Qed.

Lemma lseg_app m p l1 l2 q :
  lseg m p (l1 ++ l2) q ↔ ∃ r, lseg m p l1 r ∧ lseg m r l2 q.
Proof.
  revert p. induction l1 as [|c l1 IH]; intros p; simpl.
  - split; [intros H; by exists p | by intros (r & -> & H)].
  - split.
    + intros (-> & nx & Hm & Hs). apply IH in Hs as (r & H1 & H2).
      exists r. eauto.
    + intros (r & (-> & nx & Hm & H1) & H2). split; [done|].
      exists nx. split; [done|]. apply IH. eauto.
Qed.

Lemma lseg_node m p cs q a :
  lseg m p cs q → a ∈ cs.*1 → ∃ v nx, m !! a = Some (ONode (mkNode v nx)).
Proof.
  revert p. induction cs as [|c cs IH]; intros p; simpl.
  - intros _ Hin. by apply elem_of_nil in Hin.
  - intros (-> & nx & Hm & Hs) [->|Hin]%elem_of_cons; eauto.
Qed.

Lemma lseg_not_free m p cs q a : lseg m p cs q → m !! a = None → a ∉ cs.*1.
Proof. intros Hs Hm Hin. destruct (lseg_node _ _ _ _ _ Hs Hin) as (? & ? & ?). congruence. Qed.

Lemma lseg_not_object m p cs q a lo :
  lseg m p cs q → m !! a = Some (OList lo) → a ∉ cs.*1.
Proof. intros Hs Hm Hin. destruct (lseg_node _ _ _ _ _ Hs Hin) as (? & ? & ?). congruence. Qed.

(** Frame: a segment only depends on the nodes it passes through. *)
Lemma lseg_frame m m' p cs q :
  lseg m p cs q → (∀ a, a ∈ cs.*1 → m' !! a = m !! a) → lseg m' p cs q.
Proof.
  revert p. induction cs as [|c cs IH]; intros p; simpl; [done|].
  intros (-> & nx & Hm & Hs) Hfr. split; [done|]. exists nx. split.
  - rewrite Hfr; [done|]. apply elem_of_cons; by left.
  - apply IH; [done|]. intros a Ha. apply Hfr, elem_of_cons; by right.
Qed.

Lemma lseg_insert_ne m p cs q a o :
  lseg m p cs q → a ∉ cs.*1 → lseg (<[a := o]> m) p cs q.
Proof.
  intros Hs Hn. eapply lseg_frame; [done|]. intros b Hb.
  apply lookup_insert_ne. by intros ->.
Qed.

Lemma lseg_delete_ne m p cs q a :
  lseg m p cs q → a ∉ cs.*1 → lseg (delete a m) p cs q.
Proof.
  intros Hs Hn. eapply lseg_frame; [done|]. intros b Hb.
  apply lookup_delete_ne. by intros ->.
Qed.

(** A pointer determines the chain that hangs off it. *)
Lemma lseg_null_functional m p cs1 cs2 :
  lseg m p cs1 None → lseg m p cs2 None → cs1 = cs2.
Proof.
  revert p cs2. induction cs1 as [|[a v] cs1 IH]; intros p [|[b w] cs2]; simpl.
  - done.
  - intros -> [? _]. done.
  - intros [-> _] ?. done.
  - intros (-> & nx & Hm & Hs) (Heq & nx' & Hm' & Hs').
    injection Heq as <-. rewrite Hm in Hm'. injection Hm' as <- <-.
    f_equal. by eapply IH.
Qed.

(** A chain that reaches the null pointer passes through no node twice. *)
Lemma lseg_null_NoDup m p cs : lseg m p cs None → NoDup cs.*1.
Proof.
  revert p. induction cs as [|[a v] cs IH]; intros p; simpl.
  - intros _. constructor.
  - intros (-> & nx & Hm & Hs). constructor; [|by eapply IH].
    intros Hin. apply list_elem_of_fmap in Hin as ([a' v'] & Ha & Hin).
    simpl in Ha. subst a'.
    apply list_elem_of_split in Hin as (l1 & l2 & ->).
    pose proof Hs as Hs0.
    apply lseg_app in Hs as (r & _ & Hs2).
    assert (Hwhole : lseg m (Some a) ((a, v) :: l1 ++ (a, v') :: l2) None).
    { simpl. eauto. }
    pose proof Hs2 as [Hr _]. subst r.
    pose proof (lseg_null_functional _ _ _ _ Hwhole Hs2) as Heq.
    apply (f_equal length) in Heq. simpl in Heq.
    rewrite length_app in Heq. simpl in Heq. lia.
Qed.

Lemma is_list_functional m this cs1 sz1 cs2 sz2 :
  is_list m this cs1 sz1 → is_list m this cs2 sz2 → cs1 = cs2 ∧ sz1 = sz2.
Proof.
  intros (hv & hn & Hm & Hs) (hv' & hn' & Hm' & Hs').
  rewrite Hm in Hm'. injection Hm' as <- <- <-.
  split; [by eapply lseg_null_functional | done].
Qed.

Lemma is_list_not_in m this cs sz lo other :
  is_list m this cs sz → m !! other = Some (OList lo) → other ∉ cs.*1.
Proof. intros (hv & hn & Hm & Hs) Ho. by eapply lseg_not_object. Qed.

(** Frame for whole lists. *)
Lemma is_list_frame m m' this cs sz :
  is_list m this cs sz →
  m' !! this = m !! this →
  (∀ a, a ∈ cs.*1 → m' !! a = m !! a) →
  is_list m' this cs sz.
Proof.
  intros (hv & hn & Hm & Hs) Hthis Hfr. exists hv, hn. split; [congruence|].
  by eapply lseg_frame.
Qed.

(** ** The member functions on represented lists *)

Lemma fresh_free (m : Store) : m !! fresh (dom m) = None.
Proof. apply not_elem_of_dom, is_fresh. Qed.

(** PushFront puts one fresh node in front and counts it. *)
Lemma PushFront_spec m this cs sz v :
  is_list m this cs sz →
  ∃ a m', PushFront this v m = Some (tt, m') ∧
          m !! a = None ∧
          is_list m' this ((a, v) :: cs) (size_t_wrap (sz + 1)) ∧
          (∀ b, b ≠ this → b ≠ a → m' !! b = m !! b).
Proof.
  intros (hv & hn & Hm & Hs).
  pose proof (fresh_free m) as Hfree. set (a := fresh (dom m)) in *.
  assert (Hne : a ≠ this) by congruence.
  exists a. eexists. split; [|split; [done|]].
  - unfold PushFront, bind, get_head_next, new_Node, set_head_next, get_size, set_size.
    rewrite Hm. simpl. fold a. simplify_map_eq. reflexivity.
  - split.
    + exists hv, (Some a). split; [by simplify_map_eq|].
      simpl. split; [done|]. exists hn. split; [by simplify_map_eq|].
      apply lseg_insert_ne; [|by eapply lseg_not_object].
      apply lseg_insert_ne; [|by eapply lseg_not_object].
      apply lseg_insert_ne; [done|by eapply lseg_not_free].
    + intros b Hb1 Hb2. by simplify_map_eq.
Qed.

Lemma anchor_nil this : anchor this ([] : list (addr * Type_)) = Some this.
Proof. reflexivity. Qed.

Lemma anchor_snoc this l0 p u : anchor this (l0 ++ [(p, u)]) = Some p.
Proof. unfold anchor. rewrite fmap_app. simpl. by rewrite last_snoc. Qed.

(** InsertAfter at the sentinel: the node is put in front like PushFront
    does, and the size is incremented a second time. *)
Lemma InsertAfter_before_begin m this cs sz v :
  is_list m this cs sz →
  ∃ a m', InsertAfter this (before_begin this) v m = Some (mkIt (Some a), m') ∧
          m !! a = None ∧
          is_list m' this ((a, v) :: cs) (size_t_wrap (size_t_wrap (sz + 1) + 1)) ∧
          (∀ b, b ≠ this → b ≠ a → m' !! b = m !! b).
Proof.
  intros Hl.
  destruct (PushFront_spec _ _ _ _ v Hl) as (a & m1 & Hpush & Hfree & Hl1 & Hfr).
  destruct Hl1 as (hv & hn & Hm1 & Hs1).
  pose proof Hs1 as [Hhn _]. simpl in Hhn. subst hn.
  exists a. eexists. split; [|split; [done|split]].
  - unfold InsertAfter, iter_eqb, before_begin, cbefore_begin. simpl.
    rewrite bool_decide_eq_true_2 by done.
    rewrite (bind_Some _ _ _ _ _ Hpush).
    unfold begin, bind, get_size, set_size, get_head_next, ret.
    rewrite Hm1. simpl. simplify_map_eq. reflexivity.
  - exists hv, (Some a). split; [by simplify_map_eq|].
    apply lseg_insert_ne; [done|]. by eapply lseg_not_object.
  - intros b Hb1 Hb2. rewrite lookup_insert_ne by done. by apply Hfr.
Qed.

(** InsertAfter at a node of the list. *)
Lemma InsertAfter_node m this l0 p u l2 sz v :
  is_list m this (l0 ++ (p, u) :: l2) sz →
  ∃ a m', InsertAfter this (mkIt (Some p)) v m = Some (mkIt (Some a), m') ∧
          m !! a = None ∧
          is_list m' this (l0 ++ (p, u) :: (a, v) :: l2) (size_t_wrap (sz + 1)) ∧
          get_next (Some a) m' = Some (first_of l2, m') ∧
          get_next (Some p) m' = Some (Some a, m') ∧
          (∀ b, b ≠ this → b ≠ a → b ≠ p → m' !! b = m !! b).
Proof.
  intros (hv & hn & Hm & Hs).
  pose proof (lseg_null_NoDup _ _ _ Hs) as Hnd.
  pose proof (lseg_not_object _ _ _ _ _ _ Hs Hm) as Hthis.
  pose proof (fresh_free m) as Hfree. set (a := fresh (dom m)) in *.
  pose proof (lseg_not_free _ _ _ _ _ Hs Hfree) as Ha.
  rewrite fmap_app, fmap_cons in Hnd, Hthis, Ha. simpl in *.
  apply NoDup_app in Hnd as (Hnd0 & Hnd1 & Hnd2).
  apply NoDup_cons in Hnd2 as [Hp2 Hnd2].
  assert (Hp0 : p ∉ l0.*1) by (intros Hin; apply (Hnd1 _ Hin); left).
  assert (Hpthis : p ≠ this).
  { intros ->. apply Hthis, elem_of_app. right. left. }
  assert (Hathis : a ≠ this) by congruence.
  assert (Hap : a ≠ p).
  { intros ->. apply Ha, elem_of_app. right. left. }
  assert (Hthis0 : this ∉ l0.*1).
  { intros Hin. apply Hthis, elem_of_app. by left. }
  assert (Hthis2 : this ∉ l2.*1).
  { intros Hin. apply Hthis, elem_of_app. right. by right. }
  assert (Ha0 : a ∉ l0.*1).
  { intros Hin. apply Ha, elem_of_app. by left. }
  assert (Ha2 : a ∉ l2.*1).
  { intros Hin. apply Ha, elem_of_app. right. by right. }
  apply lseg_app in Hs as (r & Hs0 & Hs2).
  destruct Hs2 as (-> & nx & Hmp & Hs2). simpl in Hmp.
  exists a. eexists. split; [|split; [done|split; [|split; [|split]]]].
  - unfold InsertAfter, iter_eqb, cbefore_begin. simpl.
    rewrite bool_decide_eq_false_2 by congruence.
    unfold bind, get_next, new_Node, set_next, get_size, set_size, ret.
    rewrite Hmp. simpl. fold a. simplify_map_eq. reflexivity.
  - exists hv, hn. split; [by simplify_map_eq|].
    apply lseg_app. exists (Some p). split.
    + do 3 (apply lseg_insert_ne; [|done]). done.
    + simpl. split; [done|]. exists (Some a). split; [by simplify_map_eq|].
      split; [done|]. exists nx. split; [by simplify_map_eq|].
      do 3 (apply lseg_insert_ne; [|done]). done.
  - unfold get_next. simplify_map_eq. simpl.
    by rewrite (lseg_null_first _ _ _ Hs2).
  - unfold get_next. by simplify_map_eq.
  - intros b Hb1 Hb2 Hb3. by simplify_map_eq.
Qed.

(** EraseAfter at the sentinel. *)
Lemma EraseAfter_before_begin m this b w l2 sz :
  is_list m this ((b, w) :: l2) sz →
  ∃ m', EraseAfter this (before_begin this) m = Some (mkIt (first_of l2), m') ∧
        is_list m' this l2 (size_t_wrap (sz - 1)) ∧
        m' !! b = None ∧
        get_next (Some this) m' = Some (first_of l2, m') ∧
        (∀ c, c ≠ this → c ≠ b → m' !! c = m !! c) ∧
        (∀ lo, m !! this = Some (OList lo) →
               m' !! this = Some (OList (mkList (mkNode (value (head_ lo)) (first_of l2))
                                                (size_t_wrap (sz - 1))))).
Proof.
  intros (hv & hn & Hm & Hs).
  pose proof (lseg_null_NoDup _ _ _ Hs) as Hnd.
  pose proof (lseg_not_object _ _ _ _ _ _ Hs Hm) as Hthis.
  rewrite fmap_cons in Hnd, Hthis. simpl in *.
  apply NoDup_cons in Hnd as [Hb2 Hnd].
  assert (Hbthis : b ≠ this) by (intros ->; apply Hthis; left).
  assert (Hthis2 : this ∉ l2.*1) by (intros Hin; apply Hthis; by right).
  destruct Hs as (-> & nx & Hmb & Hs).
  pose proof (lseg_null_first _ _ _ Hs) as Hnx. subst nx.
  eexists. split; [|split; [|split; [|split; [|split]]]].
  - unfold EraseAfter, before_begin. simpl.
    unfold assert, bind, get_next, set_next, delete_Node, get_size, set_size, ret.
    simpl. rewrite Hm. simpl. rewrite Hmb. simpl. simplify_map_eq. reflexivity.
  - exists hv, (first_of l2). split; [by simplify_map_eq|].
    apply lseg_insert_ne; [|done]. apply lseg_delete_ne; [|done].
    apply lseg_insert_ne; [|done]. done.
  - by simplify_map_eq.
  - unfold get_next. by simplify_map_eq.
  - intros c Hc1 Hc2. by simplify_map_eq.
  - intros lo Hlo. rewrite Hm in Hlo. injection Hlo as <-. by simplify_map_eq.
Qed.

(** EraseAfter at a node of the list. *)
Lemma EraseAfter_node m this l0 p u b w l2 sz :
  is_list m this (l0 ++ (p, u) :: (b, w) :: l2) sz →
  ∃ m', EraseAfter this (mkIt (Some p)) m = Some (mkIt (first_of l2), m') ∧
        is_list m' this (l0 ++ (p, u) :: l2) (size_t_wrap (sz - 1)) ∧
        m' !! b = None ∧
        get_next (Some p) m' = Some (first_of l2, m') ∧
        (∀ c, c ≠ this → c ≠ p → c ≠ b → m' !! c = m !! c).
Proof.
  intros (hv & hn & Hm & Hs).
  pose proof (lseg_null_NoDup _ _ _ Hs) as Hnd.
  pose proof (lseg_not_object _ _ _ _ _ _ Hs Hm) as Hthis.
  rewrite fmap_app, !fmap_cons in Hnd, Hthis. simpl in *.
  apply NoDup_app in Hnd as (Hnd0 & Hnd1 & Hnd2).
  apply NoDup_cons in Hnd2 as [Hp2 Hnd2].
  apply NoDup_cons in Hnd2 as [Hb2 Hnd2].
  assert (Hp0 : p ∉ l0.*1).
  { intros Hin. apply (Hnd1 _ Hin). left. }
  assert (Hb0 : b ∉ l0.*1).
  { intros Hin. apply (Hnd1 _ Hin). right. left. }
  assert (Hpb : p ≠ b).
  { intros ->. apply Hp2. left. }
  assert (Hpl2 : p ∉ l2.*1).
  { intros Hin. apply Hp2. by right. }
  assert (Hthis0 : this ∉ l0.*1).
  { intros Hin. apply Hthis, elem_of_app. by left. }
  assert (Hthis2 : this ∉ l2.*1).
  { intros Hin. apply Hthis, elem_of_app. right. right. by right. }
  assert (Hpthis : p ≠ this).
  { intros ->. apply Hthis, elem_of_app. right. left. }
  assert (Hbthis : b ≠ this).
  { intros ->. apply Hthis, elem_of_app. right. right. left. }
  apply lseg_app in Hs as (r & Hs0 & Hs2).
  destruct Hs2 as (-> & nx & Hmp & -> & nx2 & Hmb & Hs2). simpl in Hmp, Hmb.
  pose proof (lseg_null_first _ _ _ Hs2) as Hnx. subst nx2.
  eexists. split; [|split; [|split; [|split]]].
  - unfold EraseAfter. simpl.
    unfold assert, bind, get_next, set_next, delete_Node, get_size, set_size, ret.
    simpl. rewrite Hmp. simpl. rewrite Hmb. simpl. simplify_map_eq. reflexivity.
  - exists hv, hn. split; [by simplify_map_eq|].
    apply lseg_app. exists (Some p). split.
    + apply lseg_insert_ne; [|done]. apply lseg_delete_ne; [|done].
      apply lseg_insert_ne; [|done]. done.
    + simpl. split; [done|]. exists (first_of l2). split; [by simplify_map_eq|].
      apply lseg_insert_ne; [|done]. apply lseg_delete_ne; [|done].
      apply lseg_insert_ne; [|done]. done.
  - by simplify_map_eq.
  - unfold get_next. by simplify_map_eq.
  - intros c Hc1 Hc2 Hc3. by simplify_map_eq.
Qed.

(** PopFront takes the first node away. *)
Lemma PopFront_spec m this b w l2 sz :
  is_list m this ((b, w) :: l2) sz →
  sz > 0 →
  ∃ m', PopFront this m = Some (tt, m') ∧
        is_list m' this l2 (size_t_wrap (sz - 1)) ∧
        m' !! b = None ∧
        (∀ c, c ≠ this → c ≠ b → m' !! c = m !! c) ∧
        (∀ lo, m !! this = Some (OList lo) →
               m' !! this = Some (OList (mkList (mkNode (value (head_ lo)) (first_of l2))
                                                (size_t_wrap (sz - 1))))).
Proof.
  intros (hv & hn & Hm & Hs) Hsz.
  pose proof (lseg_null_NoDup _ _ _ Hs) as Hnd.
  pose proof (lseg_not_object _ _ _ _ _ _ Hs Hm) as Hthis.
  rewrite fmap_cons in Hnd, Hthis. simpl in *.
  apply NoDup_cons in Hnd as [Hb2 Hnd].
  assert (Hbthis : b ≠ this) by (intros ->; apply Hthis; left).
  assert (Hthis2 : this ∉ l2.*1) by (intros Hin; apply Hthis; by right).
  destruct Hs as (-> & nx & Hmb & Hs).
  pose proof (lseg_null_first _ _ _ Hs) as Hnx. subst nx.
  eexists. split; [|split; [|split; [|split]]].
  - unfold PopFront.
    unfold assert, bind, get_head_next, get_next, set_head_next, delete_Node,
      get_size, set_size, ret.
    rewrite Hm. simpl. rewrite bool_decide_eq_true_2 by done.
    simpl. rewrite Hm. simpl. rewrite Hmb. simpl. simplify_map_eq. reflexivity.
  - exists hv, (first_of l2). split; [by simplify_map_eq|].
    apply lseg_insert_ne; [|done]. apply lseg_insert_ne; [|done].
    apply lseg_delete_ne; [|done]. done.
  - by simplify_map_eq.
  - intros c Hc1 Hc2. by simplify_map_eq.
  - intros lo Hlo. rewrite Hm in Hlo. injection Hlo as <-. by simplify_map_eq.
Qed.

(** The loop of Clear frees the nodes of the list one by one. *)
Lemma Clear_loop_spec cs : ∀ m this sz fuel,
  is_list m this cs sz →
  (length cs < fuel)%nat →
  ∃ m', Clear_loop fuel this m = Some (tt, m') ∧
        is_list m' this [] sz ∧
        (∀ a, a ∈ cs.*1 → m' !! a = None) ∧
        (∀ c, c ≠ this → c ∉ cs.*1 → m' !! c = m !! c).
Proof.
  induction cs as [|[b w] l2 IH]; intros m this sz fuel Hl Hfuel.
  - destruct fuel as [|fuel]; [simpl in Hfuel; lia|].
    destruct Hl as (hv & hn & Hm & Hs). simpl in Hs. subst hn.
    exists m. split; [|split; [|split]].
    + simpl. unfold bind, get_head_next, ret. by rewrite Hm.
    + by exists hv, None.
    + intros a Ha. by apply elem_of_nil in Ha.
    + done.
  - destruct fuel as [|fuel]; [simpl in Hfuel; lia|].
    destruct Hl as (hv & hn & Hm & Hs).
    pose proof (lseg_null_NoDup _ _ _ Hs) as Hnd.
    pose proof (lseg_not_object _ _ _ _ _ _ Hs Hm) as Hthis.
    rewrite fmap_cons in Hnd, Hthis. simpl in Hnd, Hthis.
    apply NoDup_cons in Hnd as [Hb2 Hnd].
    assert (Hbthis : b ≠ this) by (intros ->; apply Hthis; left).
    assert (Hthis2 : this ∉ l2.*1) by (intros Hin; apply Hthis; by right).
    destruct Hs as (-> & nx & Hmb & Hs). simpl in Hmb.
    set (m1 := <[this := OList (mkList (mkNode hv nx) sz)]> (delete b m)).
    assert (Hl1 : is_list m1 this l2 sz).
    { exists hv, nx. split; [unfold m1; by simplify_map_eq|].
      apply lseg_insert_ne; [|done]. by apply lseg_delete_ne. }
    destruct (IH m1 this sz fuel Hl1) as (m' & Hrun & Hl' & Hgone & Hfr).
    { simpl in Hfuel. lia. }
    exists m'. split; [|split; [done|split]].
    + simpl. unfold bind at 1. unfold get_head_next at 1. rewrite Hm. simpl.
      unfold bind at 1. unfold get_next at 1. rewrite Hmb. simpl.
      unfold bind at 1. unfold delete_Node at 1. rewrite Hmb. simpl.
      unfold bind at 1. unfold set_head_next at 1.
      rewrite lookup_delete_ne by done. rewrite Hm. simpl.
      exact Hrun.
    + intros a [->|Ha]%elem_of_cons; [|by apply Hgone].
      rewrite Hfr; [|done..]. unfold m1. by simplify_map_eq.
    + intros c Hc1 Hc2. rewrite fmap_cons in Hc2. simpl in Hc2.
      apply not_elem_of_cons in Hc2 as [Hcb Hc2].
      rewrite Hfr by done. unfold m1. by simplify_map_eq.
Qed.

Lemma Clear_spec m this cs sz fuel :
  is_list m this cs sz →
  (length cs < fuel)%nat →
  ∃ m', Clear fuel this m = Some (tt, m') ∧
        is_list m' this [] 0 ∧
        (∀ a, a ∈ cs.*1 → m' !! a = None) ∧
        (∀ c, c ≠ this → c ∉ cs.*1 → m' !! c = m !! c).
Proof.
  intros Hl Hfuel.
  pose proof Hl as (hv0 & hn0 & Hm0 & Hs0).
  pose proof (lseg_not_object _ _ _ _ _ _ Hs0 Hm0) as Hthis.
  destruct (Clear_loop_spec _ _ _ _ _ Hl Hfuel) as (m1 & Hrun & Hl1 & Hgone & Hfr).
  destruct Hl1 as (hv & hn & Hm1 & Hs1). simpl in Hs1. subst hn.
  eexists. split; [|split; [|split]].
  - unfold Clear. rewrite (bind_Some _ _ _ _ _ Hrun).
    unfold set_size. rewrite Hm1. reflexivity.
  - exists hv, None. split; [by simplify_map_eq|done].
  - intros a Ha. rewrite lookup_insert_ne; [by apply Hgone|]. by intros ->.
  - intros c Hc1 Hc2. rewrite lookup_insert_ne by done. by apply Hfr.
Qed.

(** swap exchanges the chains and the sizes of two list objects; no node
    is touched. *)
Lemma swap_spec m this other cs1 sz1 cs2 sz2 :
  is_list m this cs1 sz1 →
  is_list m other cs2 sz2 →
  ∃ m', swap this other m = Some (tt, m') ∧
        is_list m' this cs2 sz2 ∧
        is_list m' other cs1 sz1 ∧
        (∀ c, c ≠ this → c ≠ other → m' !! c = m !! c).
Proof.
  intros Hl1 Hl2.
  destruct (decide (this = other)) as [->|Hne].
  - destruct (is_list_functional _ _ _ _ _ _ Hl1 Hl2) as [-> ->].
    destruct Hl1 as (hv & hn & Hm & Hs).
    pose proof (lseg_not_object _ _ _ _ _ _ Hs Hm) as Hthis.
    eexists. split; [|split; [|split]].
    + unfold swap, bind, get_head_next, get_size, set_size, set_head_next.
      rewrite Hm. simpl. simplify_map_eq. reflexivity.
    + exists hv, hn. split; [by simplify_map_eq|].
      do 4 (apply lseg_insert_ne; [|done]). done.
    + exists hv, hn. split; [by simplify_map_eq|].
      do 4 (apply lseg_insert_ne; [|done]). done.
    + intros c Hc _. by simplify_map_eq.
  - pose proof Hl1 as (hv1 & hn1 & Hm1 & Hs1).
    pose proof Hl2 as (hv2 & hn2 & Hm2 & Hs2).
    pose proof (lseg_not_object _ _ _ _ _ _ Hs1 Hm1) as H11.
    pose proof (lseg_not_object _ _ _ _ _ _ Hs1 Hm2) as H12.
    pose proof (lseg_not_object _ _ _ _ _ _ Hs2 Hm1) as H21.
    pose proof (lseg_not_object _ _ _ _ _ _ Hs2 Hm2) as H22.
    eexists. split; [|split; [|split]].
    + unfold swap, bind, get_head_next, get_size, set_size, set_head_next.
      rewrite Hm1. simpl. rewrite Hm1. simpl. rewrite Hm2. simpl.
      simplify_map_eq. reflexivity.
    + exists hv1, hn2. split; [by simplify_map_eq|].
      do 4 (apply lseg_insert_ne; [|done]). done.
    + exists hv2, hn1. split; [by simplify_map_eq|].
      do 4 (apply lseg_insert_ne; [|done]). done.
    + intros c Hc1 Hc2. by simplify_map_eq.
Qed.

(** ** Walking a list with iterators *)

Lemma iter_deref_node m a v nx :
  m !! a = Some (ONode (mkNode v nx)) → iter_deref (mkIt (Some a)) m = Some (v, m).
Proof.
  intros Hm. unfold iter_deref, assert, bind, get_value, ret. simpl.
  by rewrite Hm.
Qed.

Lemma iter_incr_node m a v nx :
  m !! a = Some (ONode (mkNode v nx)) → iter_incr (mkIt (Some a)) m = Some (mkIt nx, m).
Proof.
  intros Hm. unfold iter_incr, bind, get_next, ret. simpl. by rewrite Hm.
Qed.

Lemma begin_spec m this cs sz :
  is_list m this cs sz → begin this m = Some (mkIt (first_of cs), m).
Proof.
  intros (hv & hn & Hm & Hs). unfold begin, bind, get_head_next, ret.
  rewrite Hm. simpl. by rewrite (lseg_null_first _ _ _ Hs).
Qed.

Lemma GetSize_spec m this cs sz :
  is_list m this cs sz → GetSize this m = Some (sz, m).
Proof.
  intros (hv & hn & Hm & Hs). unfold GetSize, get_size. by rewrite Hm.
Qed.

Lemma iterate_spec cs : ∀ m p fuel,
  lseg m p cs None →
  (length cs < fuel)%nat →
  iterate fuel (mkIt p) m = Some (cs.*2, m).
Proof.
  induction cs as [|[a v] cs IH]; intros m p fuel Hs Hfuel;
    (destruct fuel as [|fuel]; [simpl in Hfuel; lia|]).
  - simpl in Hs. subst p. reflexivity.
  - destruct Hs as (-> & nx & Hm & Hs). simpl in Hm.
    simpl. unfold iter_neqb. simpl.
    rewrite (bind_Some _ _ _ _ _ (iter_deref_node _ _ _ _ Hm)).
    rewrite (bind_Some _ _ _ _ _ (iter_incr_node _ _ _ _ Hm)).
    rewrite (bind_Some _ _ _ _ _ (IH m nx fuel Hs ltac:(simpl in Hfuel; lia))).
    reflexivity.
Qed.

(** What a caller sees of a represented list: GetSize gives the stored
    size and a walk from begin() to end() gives the values in order. *)
Lemma is_list_observe m this cs sz fuel :
  is_list m this cs sz →
  (length cs < fuel)%nat →
  GetSize this m = Some (sz, m) ∧ contents fuel this m = Some (cs.*2, m).
Proof.
  intros Hl Hfuel. split; [by eapply GetSize_spec|].
  unfold contents. rewrite (bind_Some _ _ _ _ _ (begin_spec _ _ _ _ Hl)).
  destruct Hl as (hv & hn & Hm & Hs).
  apply iterate_spec; [|done]. by rewrite <- (lseg_null_first _ _ _ Hs).
Qed.

(** ** MakeList and the constructors *)

Lemma MakeList_fill_list cs : ∀ m p fuel tmp,
  lseg m p cs None →
  (length cs < fuel)%nat →
  MakeList_fill fuel (mkIt p) end_ tmp m = Some (rev cs.*2 ++ tmp, m).
Proof.
  induction cs as [|[a v] cs IH]; intros m p fuel tmp Hs Hfuel;
    (destruct fuel as [|fuel]; [simpl in Hfuel; lia|]).
  - simpl in Hs. subst p. reflexivity.
  - destruct Hs as (-> & nx & Hm & Hs). simpl in Hm.
    simpl. unfold iter_eqb. simpl.
    rewrite (bind_Some _ _ _ _ _ (iter_deref_node _ _ _ _ Hm)).
    rewrite (bind_Some _ _ _ _ _ (iter_incr_node _ _ _ _ Hm)).
    rewrite (IH m nx fuel (v :: tmp) Hs ltac:(simpl in Hfuel; lia)).
    by rewrite <- app_assoc.
Qed.

Lemma MakeList_fill_array values : ∀ fuel i tmp m,
  (i ≤ length values)%nat →
  (length values - i < fuel)%nat →
  MakeList_fill fuel (mkArrIt values i) (il_end values) tmp m
  = Some (rev (drop i values) ++ tmp, m).
Proof.
  induction fuel as [|fuel IH]; intros i tmp m Hi Hfuel; [lia|].
  simpl. destruct (decide (i = length values)) as [->|Hne].
  - rewrite bool_decide_eq_true_2 by done. simpl.
    by rewrite drop_all.
  - rewrite bool_decide_eq_false_2 by done. simpl.
    destruct (lookup_lt_is_Some_2 values i) as [v Hv]; [lia|].
    unfold bind at 1. rewrite Hv. simpl. unfold bind at 1. simpl.
    rewrite IH by lia.
    rewrite (drop_S _ _ _ Hv). simpl. by rewrite <- app_assoc.
Qed.

Lemma MakeList_drain_spec tmp : ∀ m this cs sz,
  is_list m this cs sz →
  ∃ m' cs' sz', MakeList_drain this tmp m = Some (tt, m') ∧
                is_list m' this (cs' ++ cs) sz' ∧
                cs'.*2 = rev tmp ∧
                (∀ a, a ∈ cs'.*1 → m !! a = None) ∧
                (∀ c, c ≠ this → c ∉ cs'.*1 → m' !! c = m !! c).
Proof.
  induction tmp as [|top tmp IH]; intros m this cs sz Hl.
  - exists m, [], sz. split; [done|]. split; [done|]. split; [done|].
    split; [|done]. intros a Ha. by apply elem_of_nil in Ha.
  - destruct (PushFront_spec _ _ _ _ top Hl) as (a & m1 & Hpush & Hfree & Hl1 & Hfr1).
    destruct (IH _ _ _ _ Hl1) as (m' & cs' & sz' & Hrun & Hl' & Hvals & Hfree' & Hfr').
    pose proof Hl1 as (hv1 & hn1 & Hm1 & Hs1).
    pose proof Hs1 as (_ & nx1 & Hma & _). simpl in Hma.
    exists m', (cs' ++ [(a, top)]), sz'. split; [|split; [|split; [|split]]].
    + simpl. by rewrite (bind_Some _ _ _ _ _ Hpush).
    + by rewrite <- app_assoc.
    + rewrite fmap_app, Hvals. reflexivity.
    + intros c Hc. rewrite fmap_app in Hc. apply elem_of_app in Hc as [Hc|Hc].
      * pose proof (Hfree' _ Hc) as Hc1.
        rewrite <- Hfr1; [done| |]; intros ->; congruence.
      * simpl in Hc. apply list_elem_of_singleton in Hc. by subst c.
    + intros c Hc1 Hc2. rewrite fmap_app in Hc2.
      apply not_elem_of_app in Hc2 as [Hc2 Hc3].
      simpl in Hc3. apply not_elem_of_cons in Hc3 as [Hc3 _].
      rewrite Hfr' by done. by apply Hfr1.
Qed.

Lemma new_object_spec m :
  ∃ this, new_object Type_default m
          = Some (this, <[this := OList (mkList (mkNode Type_default None) 0)]> m) ∧
          m !! this = None.
Proof. exists (fresh (dom m)). split; [done|]. apply fresh_free. Qed.

Lemma is_list_new m this :
  is_list (<[this := OList (mkList (mkNode Type_default None) 0)]> m) this [] 0.
Proof. exists Type_default, None. split; [by simplify_map_eq|done]. Qed.

(** What both constructors do once the values are on the stack: push
    them to the front of the new, empty list. *)
Lemma MakeList_drain_new m this vs :
  m !! this = None →
  ∃ m' cs sz',
    MakeList_drain this (rev vs)
      (<[this := OList (mkList (mkNode Type_default None) 0)]> m) = Some (tt, m') ∧
    is_list m' this cs sz' ∧
    cs.*2 = vs ∧
    (∀ a, a ∈ cs.*1 → m !! a = None) ∧
    (∀ c, c ≠ this → c ∉ cs.*1 → m' !! c = m !! c).
Proof.
  intros Hfree.
  destruct (MakeList_drain_spec (rev vs) _ _ _ _ (is_list_new m this))
    as (m1 & cs & sz1 & Hrun & Hl1 & Hvals & Hfree1 & Hfr1).
  rewrite app_nil_r in Hl1. rewrite rev_involutive in Hvals.
  pose proof Hl1 as (hv & hn & Hm1 & Hs1).
  pose proof (lseg_not_object _ _ _ _ _ _ Hs1 Hm1) as Hthis.
  exists m1, cs, sz1. split; [done|]. split; [done|]. split; [done|]. split.
  - intros a Ha. pose proof (Hfree1 _ Ha) as Hnone.
    rewrite lookup_insert_ne in Hnone; [done|]. by intros ->.
  - intros c Hc1 Hc2. rewrite Hfr1 by done. by rewrite lookup_insert_ne.
Qed.

Lemma set_size_spec m this cs sz sz' :
  is_list m this cs sz →
  ∃ m', set_size this sz' m = Some (tt, m') ∧
        is_list m' this cs sz' ∧
        (∀ c, c ≠ this → m' !! c = m !! c).
Proof.
  intros (hv & hn & Hm & Hs).
  pose proof (lseg_not_object _ _ _ _ _ _ Hs Hm) as Hthis.
  eexists. split; [|split].
  - unfold set_size. rewrite Hm. reflexivity.
  - exists hv, hn. split; [by simplify_map_eq|]. by apply lseg_insert_ne.
  - intros c Hc. by simplify_map_eq.
Qed.

Lemma ctor_initializer_list_spec m values fuel :
  (length values < fuel)%nat →
  ∃ this m' cs,
    ctor_initializer_list Type_default fuel values m = Some (this, m') ∧
    m !! this = None ∧
    is_list m' this cs (il_size values) ∧
    cs.*2 = values ∧
    (∀ a, a ∈ cs.*1 → m !! a = None) ∧
    (∀ c, c ≠ this → c ∉ cs.*1 → m' !! c = m !! c).
Proof.
  intros Hfuel.
  destruct (new_object_spec m) as (this & Hnew & Hfree).
  destruct (MakeList_drain_new m this values Hfree)
    as (m1 & cs & sz1 & Hrun & Hl1 & Hvals & Hfree' & Hfr1).
  destruct (set_size_spec _ _ _ _ (il_size values) Hl1) as (m' & Hset & Hl & Hfr).
  exists this, m', cs. split; [|split; [done|split; [done|split; [done|split; [done|]]]]].
  - unfold ctor_initializer_list. rewrite (bind_Some _ _ _ _ _ Hnew).
    unfold MakeList. unfold bind at 1 2. unfold il_begin.
    rewrite MakeList_fill_array by lia.
    rewrite drop_0, app_nil_r, Hrun.
    by rewrite (bind_Some _ _ _ _ _ Hset).
  - intros c Hc1 Hc2. rewrite Hfr by done. by apply Hfr1.
Qed.

Lemma ctor_copy_spec m other cs0 sz fuel :
  is_list m other cs0 sz →
  (length cs0 < fuel)%nat →
  ∃ this m' cs,
    ctor_copy Type_default fuel other m = Some (this, m') ∧
    m !! this = None ∧
    is_list m' this cs sz ∧
    cs.*2 = cs0.*2 ∧
    (∀ a, a ∈ cs.*1 → m !! a = None) ∧
    (∀ c, c ≠ this → c ∉ cs.*1 → m' !! c = m !! c).
Proof.
  intros Hl0 Hfuel.
  destruct (new_object_spec m) as (this & Hnew & Hfree).
  destruct (MakeList_drain_new m this cs0.*2 Hfree)
    as (m2 & cs & sz2 & Hrun & Hl2 & Hvals & Hfree' & Hfr2).
  destruct (set_size_spec _ _ _ _ sz Hl2) as (m' & Hset & Hl & Hfr).
  exists this, m', cs. split; [|split; [done|split; [done|split; [done|split; [done|]]]]].
  - set (m1 := <[this := OList (mkList (mkNode Type_default None) 0)]> m) in *.
    pose proof Hl0 as (hv & hn & Hm & Hs).
    assert (Hne : other ≠ this) by congruence.
    assert (Hl1 : is_list m1 other cs0 sz).
    { eapply is_list_frame; [done| |].
      - unfold m1. by rewrite lookup_insert_ne.
      - intros a Ha. unfold m1. rewrite lookup_insert_ne; [done|].
        intros <-. destruct (lseg_node _ _ _ _ _ Hs Ha) as (? & ? & ?). congruence. }
    assert (Hm2 : m2 !! other = m !! other).
    { apply Hfr2; [done|]. intros Hin. apply Hfree' in Hin. congruence. }
    unfold ctor_copy. rewrite (bind_Some _ _ _ _ _ Hnew). fold m1.
    rewrite (bind_Some _ _ _ _ _ (begin_spec _ _ _ _ Hl1)).
    unfold MakeList.
    destruct Hl1 as (hv1 & hn1 & Hm1 & Hs1).
    rewrite <- (lseg_null_first _ _ _ Hs1).
    unfold bind at 1 2.
    rewrite (MakeList_fill_list _ _ _ _ [] Hs1 Hfuel). rewrite app_nil_r.
    rewrite Hrun.
    unfold bind at 1. unfold get_size at 1. rewrite Hm2, Hm. simpl.
    by rewrite (bind_Some _ _ _ _ _ Hset).
  - intros c Hc1 Hc2. rewrite Hfr by done. by apply Hfr2.
Qed.

(** ** Destruction and assignment *)

Lemma is_list_node m this cs sz a :
  is_list m this cs sz → a ∈ cs.*1 → ∃ v nx, m !! a = Some (ONode (mkNode v nx)).
Proof. intros (hv & hn & Hm & Hs) Ha. by eapply lseg_node. Qed.

Lemma is_list_object m this cs sz :
  is_list m this cs sz → ∃ lo, m !! this = Some (OList lo).
Proof. intros (hv & hn & Hm & Hs). eauto. Qed.

Lemma dtor_spec m this cs sz fuel :
  is_list m this cs sz →
  (length cs < fuel)%nat →
  ∃ m', dtor fuel this m = Some (tt, m') ∧
        m' !! this = None ∧
        (∀ a, a ∈ cs.*1 → m' !! a = None) ∧
        (∀ c, c ≠ this → c ∉ cs.*1 → m' !! c = m !! c).
Proof.
  intros Hl Hfuel.
  destruct (is_list_object _ _ _ _ Hl) as [l0 Hm0].
  destruct (Clear_spec _ _ _ _ _ Hl Hfuel) as (m1 & Hrun & Hl1 & Hgone & Hfr).
  destruct Hl1 as (hv & hn & Hm1 & Hs1).
  exists (delete this m1). split; [|split; [|split]].
  - unfold dtor. rewrite (bind_Some _ _ _ _ _ Hrun).
    unfold release_object. by rewrite Hm1.
  - apply lookup_delete_eq.
  - intros a Ha. rewrite lookup_delete_ne; [by apply Hgone|].
    intros <-. destruct (is_list_node _ _ _ _ _ Hl Ha) as (? & ? & ?). congruence.
  - intros c Hc1 Hc2. rewrite lookup_delete_ne by done. by apply Hfr.
Qed.

(** Assignment from another list: the target ends up with a fresh copy of
    the source's values and the source's size, its old nodes are freed,
    and the source is as it was. *)
Lemma assign_other_spec m this rhs cs1 sz1 cs2 sz2 fuel :
  is_list m this cs1 sz1 →
  is_list m rhs cs2 sz2 →
  this ≠ rhs →
  (∀ a, a ∈ cs1.*1 → a ∉ cs2.*1) →
  (length cs1 < fuel)%nat →
  (length cs2 < fuel)%nat →
  ∃ m' cs',
    assign Type_default fuel this rhs m = Some (this, m') ∧
    is_list m' this cs' sz2 ∧
    cs'.*2 = cs2.*2 ∧
    is_list m' rhs cs2 sz2 ∧
    (∀ a, a ∈ cs1.*1 → m' !! a = None).
Proof.
  intros Hl1 Hl2 Hne Hdisj Hfuel1 Hfuel2.
  destruct (is_list_object _ _ _ _ Hl1) as [o1 Ho1].
  destruct (is_list_object _ _ _ _ Hl2) as [o2 Ho2].
  destruct (ctor_copy_spec _ _ _ _ _ Hl2 Hfuel2)
    as (tmp & ma & cs' & Hcopy & Hfree & Hlt & Hvals & Hfresh & Hfra).
  assert (Htmp1 : this ≠ tmp) by congruence.
  assert (Htmp2 : rhs ≠ tmp) by congruence.
  assert (Hold : ∀ x cs sz a, is_list m x cs sz → a ∈ cs.*1 → a ≠ tmp ∧ a ∉ cs'.*1).
  { intros x cs sz a Hl Ha.
    destruct (is_list_node _ _ _ _ _ Hl Ha) as (v & nx & Hma).
    split; [congruence|]. intros Hin. apply Hfresh in Hin. congruence. }
  assert (Hobj : ∀ x o, m !! x = Some o → ma !! x = Some o).
  { intros x o Hml. rewrite Hfra; [done|congruence|].
    intros Hin. apply Hfresh in Hin. congruence. }
  assert (Hl1a : is_list ma this cs1 sz1).
  { eapply is_list_frame; [done|by rewrite (Hobj _ _ Ho1)|].
    intros a Ha. destruct (Hold _ _ _ _ Hl1 Ha). by apply Hfra. }
  assert (Hl2a : is_list ma rhs cs2 sz2).
  { eapply is_list_frame; [done|by rewrite (Hobj _ _ Ho2)|].
    intros a Ha. destruct (Hold _ _ _ _ Hl2 Ha). by apply Hfra. }
  destruct (swap_spec _ _ _ _ _ _ _ Hl1a Hlt) as (mb & Hswap & Hlb & Hltb & Hfrb).
  assert (Hl2b : is_list mb rhs cs2 sz2).
  { eapply is_list_frame; [done|by apply Hfrb|].
    intros a Ha.
    destruct (is_list_node _ _ _ _ _ Hl2 Ha) as (v & nx & Hma).
    destruct (Hold _ _ _ _ Hl2 Ha). apply Hfrb; congruence. }
  destruct (dtor_spec _ _ _ _ _ Hltb Hfuel1) as (mc & Hdtor & Hgone & Hgone1 & Hfrc).
  pose proof (is_list_not_in _ _ _ _ _ _ Hl1 Ho1) as Hthis1.
  pose proof (is_list_not_in _ _ _ _ _ _ Hl1 Ho2) as Hrhs1.
  exists mc, cs'. split; [|split; [|split; [done|split; [|done]]]].
  - unfold assign. rewrite bool_decide_eq_true_2 by done.
    rewrite (bind_Some _ _ _ _ _ Hcopy).
    rewrite (bind_Some _ _ _ _ _ Hswap).
    by rewrite (bind_Some _ _ _ _ _ Hdtor).
  - eapply is_list_frame; [done|by apply Hfrc|].
    intros a Ha. apply Hfrc.
    + destruct (is_list_object _ _ _ _ Hltb) as [ot Hot].
      destruct (is_list_node _ _ _ _ _ Hlb Ha) as (v & nx & Hma). congruence.
    + intros Hin. destruct (Hold _ _ _ _ Hl1 Hin). done.
  - eapply is_list_frame; [done|by apply Hfrc|].
    intros a Ha. apply Hfrc.
    + destruct (Hold _ _ _ _ Hl2 Ha). done.
    + intros Hin. by apply (Hdisj _ Hin).
Qed.

(** ** The comparison operators *)

Lemma std_equal_spec cs1 : ∀ m p1 p2 cs2 fuel,
  lseg m p1 cs1 None →
  lseg m p2 cs2 None →
  (length cs1 < fuel)%nat →
  std_equal Type_eqb fuel (mkIt p1) end_ (mkIt p2) end_ m
  = Some (equal_values Type_eqb cs1.*2 cs2.*2, m).
Proof.
  induction cs1 as [|[a v] cs1 IH]; intros m p1 p2 cs2 fuel Hs1 Hs2 Hfuel;
    (destruct fuel as [|fuel]; [simpl in Hfuel; lia|]).
  - simpl in Hs1. subst p1. simpl.
    destruct cs2 as [|[b w] cs2]; simpl in Hs2.
    + by subst p2.
    + by destruct Hs2 as (-> & _).
  - destruct Hs1 as (-> & nx1 & Hm1 & Hs1). simpl in Hm1.
    destruct cs2 as [|[b w] cs2]; simpl in Hs2.
    + by subst p2.
    + destruct Hs2 as (-> & nx2 & Hm2 & Hs2). simpl in Hm2.
      simpl. unfold iter_eqb. simpl.
      rewrite (bind_Some _ _ _ _ _ (iter_deref_node _ _ _ _ Hm1)).
      rewrite (bind_Some _ _ _ _ _ (iter_deref_node _ _ _ _ Hm2)).
      destruct (Type_eqb v w); simpl; [|done].
      rewrite (bind_Some _ _ _ _ _ (iter_incr_node _ _ _ _ Hm1)).
      rewrite (bind_Some _ _ _ _ _ (iter_incr_node _ _ _ _ Hm2)).
      apply IH; [done..|]. simpl in Hfuel. lia.
Qed.

Lemma std_lexicographical_compare_spec cs1 : ∀ m p1 p2 cs2 fuel,
  lseg m p1 cs1 None →
  lseg m p2 cs2 None →
  (length cs1 < fuel)%nat →
  std_lexicographical_compare Type_ltb fuel (mkIt p1) end_ (mkIt p2) end_ m
  = Some (less_values Type_ltb cs1.*2 cs2.*2, m).
Proof.
  induction cs1 as [|[a v] cs1 IH]; intros m p1 p2 cs2 fuel Hs1 Hs2 Hfuel;
    (destruct fuel as [|fuel]; [simpl in Hfuel; lia|]).
  - simpl in Hs1. subst p1. simpl.
    destruct cs2 as [|[b w] cs2]; simpl in Hs2.
    + by subst p2.
    + by destruct Hs2 as (-> & _).
  - destruct Hs1 as (-> & nx1 & Hm1 & Hs1). simpl in Hm1.
    destruct cs2 as [|[b w] cs2]; simpl in Hs2.
    + by subst p2.
    + destruct Hs2 as (-> & nx2 & Hm2 & Hs2). simpl in Hm2.
      simpl. unfold iter_eqb. simpl.
      rewrite (bind_Some _ _ _ _ _ (iter_deref_node _ _ _ _ Hm1)).
      rewrite (bind_Some _ _ _ _ _ (iter_deref_node _ _ _ _ Hm2)).
      destruct (Type_ltb v w); simpl; [done|].
      destruct (Type_ltb w v); simpl; [done|].
      rewrite (bind_Some _ _ _ _ _ (iter_incr_node _ _ _ _ Hm1)).
      rewrite (bind_Some _ _ _ _ _ (iter_incr_node _ _ _ _ Hm2)).
      apply IH; [done..|]. simpl in Hfuel. lia.
Qed.

Lemma list_eq_spec m lhs rhs cs1 sz1 cs2 sz2 fuel :
  is_list m lhs cs1 sz1 →
  is_list m rhs cs2 sz2 →
  (length cs1 < fuel)%nat →
  list_eq Type_eqb fuel lhs rhs m = Some (equal_values Type_eqb cs1.*2 cs2.*2, m).
Proof.
  intros Hl1 Hl2 Hfuel. unfold list_eq.
  rewrite (bind_Some _ _ _ _ _ (begin_spec _ _ _ _ Hl1)).
  rewrite (bind_Some _ _ _ _ _ (begin_spec _ _ _ _ Hl2)).
  destruct Hl1 as (hv1 & hn1 & Hm1 & Hs1). destruct Hl2 as (hv2 & hn2 & Hm2 & Hs2).
  rewrite <- (lseg_null_first _ _ _ Hs1), <- (lseg_null_first _ _ _ Hs2).
  by apply std_equal_spec.
Qed.

Lemma list_lt_spec m lhs rhs cs1 sz1 cs2 sz2 fuel :
  is_list m lhs cs1 sz1 →
  is_list m rhs cs2 sz2 →
  (length cs1 < fuel)%nat →
  list_lt Type_ltb fuel lhs rhs m = Some (less_values Type_ltb cs1.*2 cs2.*2, m).
Proof.
  intros Hl1 Hl2 Hfuel. unfold list_lt.
  rewrite (bind_Some _ _ _ _ _ (begin_spec _ _ _ _ Hl1)).
  rewrite (bind_Some _ _ _ _ _ (begin_spec _ _ _ _ Hl2)).
  destruct Hl1 as (hv1 & hn1 & Hm1 & Hs1). destruct Hl2 as (hv2 & hn2 & Hm2 & Hs2).
  rewrite <- (lseg_null_first _ _ _ Hs1), <- (lseg_null_first _ _ _ Hs2).
  by apply std_lexicographical_compare_spec.
Qed.

Lemma equal_values_Forall2 xs ys :
  equal_values Type_eqb xs ys = true ↔ Forall2 (λ x y, Type_eqb x y = true) xs ys.
Proof.
  revert ys. induction xs as [|x xs IH]; intros [|y ys]; simpl.
  - split; [constructor|done].
  - split; [done|]. intros H. inversion H.
  - split; [done|]. intros H. inversion H.
  - rewrite andb_true_iff, IH. split.
    + intros [? ?]. by constructor.
    + intros H. inversion H; subst. done.
Qed.

Lemma equal_values_refl xs :
  (∀ x, Type_eqb x x = true) → equal_values Type_eqb xs xs = true.
Proof.
  intros Hrefl. induction xs as [|x xs IH]; simpl; [done|].
  by rewrite Hrefl, IH.
Qed.

Lemma less_values_lexicographic xs ys :
  less_values Type_ltb xs ys = true ↔ lexicographic_lt Type_ltb xs ys.
Proof.
  revert ys. induction xs as [|x xs IH]; intros [|y ys]; simpl.
  - split; [done|]. intros H. inversion H.
  - split; [constructor|done].
  - split; [done|]. intros H. inversion H.
  - destruct (Type_ltb x y) eqn:Hxy.
    + split; [|done]. intros _. by apply lex_less.
    + destruct (Type_ltb y x) eqn:Hyx.
      * split; [done|]. intros H. inversion H; congruence.
      * rewrite IH. split.
        -- intros H. by apply lex_next.
        -- intros H. inversion H; [congruence|done].
Qed.

Lemma less_values_prefix xs y ys : less_values Type_ltb xs (xs ++ y :: ys) = true.
Proof.
  induction xs as [|x xs IH]; simpl; [done|].
  destruct (Type_ltb x x); done.
Qed.

(** ** The size invariant, operation by operation *)

Lemma size_t_wrap_small z : 0 ≤ z < 2 ^ size_t_bits → size_t_wrap z = z.
Proof. intros Hz. unfold size_t_wrap. by apply Z.mod_small. Qed.

Lemma size_matches_cons c cs sz :
  size_matches cs sz → size_matches (c :: cs) (sz + 1).
Proof. unfold size_matches. intros ->. simpl length. lia. Qed.

Lemma size_matches_app_cons l1 c l2 sz :
  size_matches (l1 ++ l2) sz → size_matches (l1 ++ c :: l2) (sz + 1).
Proof. unfold size_matches. intros ->. rewrite !length_app. simpl length. lia. Qed.

Lemma size_matches_app_uncons l1 c l2 sz :
  size_matches (l1 ++ c :: l2) sz → size_matches (l1 ++ l2) (sz - 1).
Proof. unfold size_matches. intros ->. rewrite !length_app. simpl length. lia. Qed.

Lemma PushFront_size_matches m this cs sz v :
  is_list m this cs sz →
  size_matches cs sz →
  sz + 1 < 2 ^ size_t_bits →
  ∃ a m', PushFront this v m = Some (tt, m') ∧
          is_list m' this ((a, v) :: cs) (sz + 1) ∧
          size_matches ((a, v) :: cs) (sz + 1).
Proof.
  intros Hl Hsz Hb.
  destruct (PushFront_spec _ _ _ _ v Hl) as (a & m' & Hrun & _ & Hl' & _).
  rewrite size_t_wrap_small in Hl' by (unfold size_matches in Hsz; lia).
  exists a, m'. split; [done|]. split; [done|]. by apply size_matches_cons.
Qed.

Lemma InsertAfter_node_size_matches m this l0 p u l2 sz v :
  is_list m this (l0 ++ (p, u) :: l2) sz →
  size_matches (l0 ++ (p, u) :: l2) sz →
  sz + 1 < 2 ^ size_t_bits →
  ∃ a m', InsertAfter this (mkIt (Some p)) v m = Some (mkIt (Some a), m') ∧
          is_list m' this (l0 ++ (p, u) :: (a, v) :: l2) (sz + 1) ∧
          size_matches (l0 ++ (p, u) :: (a, v) :: l2) (sz + 1).
Proof.
  intros Hl Hsz Hb.
  destruct (InsertAfter_node _ _ _ _ _ _ _ v Hl) as (a & m' & Hrun & _ & Hl' & _).
  rewrite size_t_wrap_small in Hl' by (unfold size_matches in Hsz; lia).
  exists a, m'. split; [done|]. split; [done|].
  change (l0 ++ (p, u) :: (a, v) :: l2) with (l0 ++ [(p, u)] ++ (a, v) :: l2).
  rewrite app_assoc. apply size_matches_app_cons. by rewrite <- app_assoc.
Qed.

(** The one operation that breaks the invariant: at the sentinel the size
    is incremented once by PushFront and once more by InsertAfter. *)
Lemma InsertAfter_before_begin_size m this cs sz v :
  is_list m this cs sz →
  size_matches cs sz →
  sz + 2 < 2 ^ size_t_bits →
  ∃ a m', InsertAfter this (before_begin this) v m = Some (mkIt (Some a), m') ∧
          is_list m' this ((a, v) :: cs) (sz + 2) ∧
          ¬ size_matches ((a, v) :: cs) (sz + 2).
Proof.
  intros Hl Hsz Hb.
  destruct (InsertAfter_before_begin _ _ _ _ v Hl) as (a & m' & Hrun & _ & Hl' & _).
  assert (0 ≤ sz) by (unfold size_matches in Hsz; lia).
  rewrite (size_t_wrap_small (sz + 1)) in Hl' by lia.
  rewrite size_t_wrap_small in Hl' by lia.
  replace (sz + 1 + 1) with (sz + 2) in Hl' by lia.
  exists a, m'. split; [done|]. split; [done|].
  unfold size_matches in *. simpl length. lia.
Qed.

Lemma PopFront_size_matches m this b w l2 sz :
  is_list m this ((b, w) :: l2) sz →
  size_matches ((b, w) :: l2) sz →
  sz < 2 ^ size_t_bits →
  ∃ m', PopFront this m = Some (tt, m') ∧
        is_list m' this l2 (sz - 1) ∧
        size_matches l2 (sz - 1).
Proof.
  intros Hl Hsz Hb.
  assert (sz > 0) by (unfold size_matches in Hsz; simpl length in Hsz; lia).
  destruct (PopFront_spec _ _ _ _ _ _ Hl) as (m' & Hrun & Hl' & _); [done|].
  rewrite size_t_wrap_small in Hl' by lia.
  exists m'. split; [done|]. split; [done|].
  by apply (size_matches_app_uncons [] (b, w)).
Qed.

Lemma Clear_size_matches m this cs sz fuel :
  is_list m this cs sz →
  (length cs < fuel)%nat →
  ∃ m', Clear fuel this m = Some (tt, m') ∧
        is_list m' this [] 0 ∧
        size_matches (@nil (addr * Type_)) 0.
Proof.
  intros Hl Hfuel.
  destruct (Clear_spec _ _ _ _ _ Hl Hfuel) as (m' & Hrun & Hl' & _).
  by exists m'.
Qed.

Lemma ctor_default_size_matches m :
  ∃ this m', ctor_default Type_default m = Some (this, m') ∧
             is_list m' this [] 0 ∧
             size_matches (@nil (addr * Type_)) 0.
Proof.
  destruct (new_object_spec m) as (this & Hnew & _).
  eexists this, _. split; [exact Hnew|]. split; [apply is_list_new|done].
Qed.

Lemma ctor_initializer_list_size_matches m values fuel :
  (length values < fuel)%nat →
  ∃ this m' cs, ctor_initializer_list Type_default fuel values m = Some (this, m') ∧
                is_list m' this cs (il_size values) ∧
                size_matches cs (il_size values).
Proof.
  intros Hfuel.
  destruct (ctor_initializer_list_spec m values fuel Hfuel)
    as (this & m' & cs & Hrun & _ & Hl & Hvals & _).
  exists this, m', cs. split; [done|]. split; [done|].
  unfold size_matches, il_size. by rewrite <- Hvals, length_fmap.
Qed.

Lemma ctor_copy_size_matches m other cs sz fuel :
  is_list m other cs sz →
  size_matches cs sz →
  (length cs < fuel)%nat →
  ∃ this m' cs', ctor_copy Type_default fuel other m = Some (this, m') ∧
                 is_list m' this cs' sz ∧
                 size_matches cs' sz.
Proof.
  intros Hl Hsz Hfuel.
  destruct (ctor_copy_spec _ _ _ _ _ Hl Hfuel)
    as (this & m' & cs' & Hrun & _ & Hl' & Hvals & _).
  exists this, m', cs'. split; [done|]. split; [done|].
  unfold size_matches in *. rewrite Hsz.
  by rewrite <- (length_fmap snd cs'), Hvals, length_fmap.
Qed.

Lemma assign_other_size_matches m this rhs cs1 sz1 cs2 sz2 fuel :
  is_list m this cs1 sz1 →
  is_list m rhs cs2 sz2 →
  size_matches cs2 sz2 →
  this ≠ rhs →
  (∀ a, a ∈ cs1.*1 → a ∉ cs2.*1) →
  (length cs1 < fuel)%nat →
  (length cs2 < fuel)%nat →
  ∃ m' cs', assign Type_default fuel this rhs m = Some (this, m') ∧
            is_list m' this cs' sz2 ∧
            size_matches cs' sz2.
Proof.
  intros Hl1 Hl2 Hsz Hne Hdisj Hfuel1 Hfuel2.
  destruct (assign_other_spec _ _ _ _ _ _ _ _ Hl1 Hl2 Hne Hdisj Hfuel1 Hfuel2)
    as (m' & cs' & Hrun & Hl' & Hvals & _).
  exists m', cs'. split; [done|]. split; [done|].
  unfold size_matches in *. rewrite Hsz.
  by rewrite <- (length_fmap snd cs'), Hvals, length_fmap.
Qed.

(** ** The statements of the specification *)

(** C4. EraseAfter(pos), for a position [pos] of the list (the sentinel or
    a node) that has a next node [b]: exactly [b] is unlinked and freed,
    the nodes before and after it stay as they are and in their order,
    pos.next becomes the former successor of [b], the size goes down by
    one, and the iterator returned refers to the new pos.next (end() when
    [b] was the last node). *)
Theorem EraseAfter_removes_next m this l1 b w l2 sz :
  is_list m this (l1 ++ (b, w) :: l2) sz →
  0 < sz < 2 ^ size_t_bits →
  ∃ m', EraseAfter this (mkIt (anchor this l1)) m = Some (mkIt (first_of l2), m') ∧
        is_list m' this (l1 ++ l2) (sz - 1) ∧
        m' !! b = None ∧
        get_next (anchor this l1) m' = Some (first_of l2, m') ∧
        (∀ c, c ≠ this → Some c ≠ anchor this l1 → c ≠ b → m' !! c = m !! c).
Proof.
  intros Hl Hsz.
  assert (Hw : size_t_wrap (sz - 1) = sz - 1) by (apply size_t_wrap_small; lia).
  destruct l1 as [|[p u] l0 _] using rev_ind.
  - rewrite anchor_nil. simpl in *.
    destruct (EraseAfter_before_begin _ _ _ _ _ _ Hl)
      as (m' & Hrun & Hl' & Hb & Hnx & Hfr & _).
    exists m'. rewrite Hw in Hl'. repeat split; try done.
    intros c Hc1 _ Hc2. by apply Hfr.
  - rewrite anchor_snoc. rewrite <- app_assoc in *. simpl in *.
    destruct (EraseAfter_node _ _ _ _ _ _ _ _ _ Hl) as (m' & Hrun & Hl' & Hb & Hnx & Hfr).
    exists m'. rewrite Hw in Hl'. repeat split; try done.
    intros c Hc1 Hc2 Hc3. apply Hfr; congruence.
Qed.

(** C5. On a non-empty list EraseAfter(before_begin()) and PopFront() do
    the same: both succeed and leave the very same store, in which the
    first node is gone, the other nodes follow in their order and the
    size is one less. *)
Theorem EraseAfter_before_begin_PopFront m this cs sz :
  is_list m this cs sz →
  cs ≠ [] →
  sz > 0 →
  ∃ it m', EraseAfter this (before_begin this) m = Some (it, m') ∧
           PopFront this m = Some (tt, m') ∧
           is_list m' this (tail cs) (size_t_wrap (sz - 1)).
Proof.
  intros Hl Hne Hsz. destruct cs as [|[b w] l2]; [done|]. simpl.
  destruct (EraseAfter_before_begin _ _ _ _ _ _ Hl)
    as (m1 & Hrun1 & Hl1 & Hb1 & _ & Hfr1 & Hthis1).
  destruct (PopFront_spec _ _ _ _ _ _ Hl Hsz) as (m2 & Hrun2 & Hl2 & Hb2 & Hfr2 & Hthis2).
  exists (mkIt (first_of l2)), m1. split; [done|]. split; [|done].
  rewrite Hrun2. do 2 f_equal. apply map_eq. intros i.
  destruct (is_list_object _ _ _ _ Hl) as [lo Hlo].
  destruct (decide (i = this)) as [->|Hthis].
  - by rewrite (Hthis1 _ Hlo), (Hthis2 _ Hlo).
  - destruct (decide (i = b)) as [->|Hib]; [congruence|].
    rewrite Hfr1, Hfr2 by done. done.
Qed.

(** C6. A list constructed from an initializer list holds the given
    values in the given order, and its size is their number. *)
Theorem ctor_initializer_list_order_size m values fuel :
  (length values < fuel)%nat →
  ∃ this m', ctor_initializer_list Type_default fuel values m = Some (this, m') ∧
             GetSize this m' = Some (Z.of_nat (length values), m') ∧
             contents fuel this m' = Some (values, m').
Proof.
  intros Hfuel.
  destruct (ctor_initializer_list_spec m values fuel Hfuel)
    as (this & m' & cs & Hrun & _ & Hl & Hvals & _).
  assert (Hlen : length cs = length values).
  { rewrite <- Hvals. by rewrite length_fmap. }
  destruct (is_list_observe _ _ _ _ fuel Hl) as [Hsize Hcont]; [lia|].
  exists this, m'. rewrite Hvals in Hcont. done.
Qed.

(** C7. The copy constructor makes a list equal to the original: the same
    size, the same values in the same order, and operator== says so (for
    an element equality that holds between an element and itself).  The
    copy has nodes of its own and the original is left as it was. *)
Theorem ctor_copy_equal m other cs sz fuel :
  is_list m other cs sz →
  (length cs < fuel)%nat →
  (∀ x, Type_eqb x x = true) →
  ∃ this m' cs',
    ctor_copy Type_default fuel other m = Some (this, m') ∧
    this ≠ other ∧
    is_list m' this cs' sz ∧ cs'.*2 = cs.*2 ∧ (∀ a, a ∈ cs'.*1 → a ∉ cs.*1) ∧
    is_list m' other cs sz ∧
    GetSize this m' = Some (sz, m') ∧ GetSize other m' = Some (sz, m') ∧
    contents fuel this m' = Some (cs.*2, m') ∧
    contents fuel other m' = Some (cs.*2, m') ∧
    list_eq Type_eqb fuel this other m' = Some (true, m').
Proof.
  intros Hl Hfuel Hrefl.
  destruct (ctor_copy_spec _ _ _ _ _ Hl Hfuel)
    as (this & m' & cs' & Hrun & Hfree & Hl' & Hvals & Hfresh & Hfr).
  destruct (is_list_object _ _ _ _ Hl) as [lo Hlo].
  assert (Hne : this ≠ other) by congruence.
  assert (Hdisj : ∀ a, a ∈ cs'.*1 → a ∉ cs.*1).
  { intros a Ha Hin. destruct (is_list_node _ _ _ _ _ Hl Hin) as (? & ? & ?).
    apply Hfresh in Ha. congruence. }
  assert (Hlo' : is_list m' other cs sz).
  { eapply is_list_frame; [done| |].
    - apply Hfr; [done|]. intros Hin. apply Hfresh in Hin. congruence.
    - intros a Ha. destruct (is_list_node _ _ _ _ _ Hl Ha) as (? & ? & ?).
      apply Hfr; [congruence|]. intros Hin. apply Hfresh in Hin. congruence. }
  assert (Hlen : length cs' = length cs).
  { rewrite <- (length_fmap snd cs'), Hvals. by rewrite length_fmap. }
  destruct (is_list_observe _ _ _ _ fuel Hl') as [Hsize' Hcont']; [lia|].
  destruct (is_list_observe _ _ _ _ fuel Hlo' Hfuel) as [Hsize Hcont].
  exists this, m', cs'. rewrite Hvals in Hcont'.
  repeat (split; [done|]).
  rewrite (list_eq_spec _ _ _ _ _ _ _ fuel Hl' Hlo') by lia.
  by rewrite Hvals, equal_values_refl.
Qed.

(** C8. Self-assignment does nothing: the store after [lst = lst] is the
    store before it, so neither the size nor any node of the list has
    changed. *)
Theorem assign_self m this fuel :
  assign Type_default fuel this this m = Some (this, m).
Proof. unfold assign. by rewrite bool_decide_eq_false_2 by (intros H; by apply H). Qed.

(** C9. operator== holds exactly when the two lists have the same number
    of elements and equal elements position by position (for lists whose
    stored size is their number of nodes: the same size); operator< is
    the lexicographic order of the two value sequences, in which a strict
    prefix comes before the longer list and the empty list before every
    non-empty one. *)
Theorem comparison_operators m lhs rhs cs1 sz1 cs2 sz2 fuel :
  is_list m lhs cs1 sz1 →
  is_list m rhs cs2 sz2 →
  (length cs1 < fuel)%nat →
  ∃ e lt,
    list_eq Type_eqb fuel lhs rhs m = Some (e, m) ∧
    list_lt Type_ltb fuel lhs rhs m = Some (lt, m) ∧
    (e = true ↔ length cs1 = length cs2 ∧
                Forall2 (λ x y, Type_eqb x y = true) cs1.*2 cs2.*2) ∧
    (size_matches cs1 sz1 → size_matches cs2 sz2 →
     (e = true ↔ sz1 = sz2 ∧ Forall2 (λ x y, Type_eqb x y = true) cs1.*2 cs2.*2)) ∧
    (lt = true ↔ lexicographic_lt Type_ltb cs1.*2 cs2.*2) ∧
    ((∃ y ys, cs2.*2 = cs1.*2 ++ y :: ys) → lt = true) ∧
    (cs1 = [] → cs2 ≠ [] → lt = true).
Proof.
  intros Hl1 Hl2 Hfuel.
  exists (equal_values Type_eqb cs1.*2 cs2.*2), (less_values Type_ltb cs1.*2 cs2.*2).
  assert (Hlen : Forall2 (λ x y, Type_eqb x y = true) cs1.*2 cs2.*2 →
                 length cs1 = length cs2).
  { intros HF. apply Forall2_length in HF. by rewrite !length_fmap in HF. }
  split; [by eapply list_eq_spec|]. split; [by eapply list_lt_spec|].
  split; [|split; [|split; [|split]]].
  - rewrite equal_values_Forall2. split; [|by intros [_ ?]].
    intros HF. split; [by apply Hlen|done].
  - unfold size_matches. intros -> ->. rewrite equal_values_Forall2.
    split; [|by intros [_ ?]].
    intros HF. split; [|done]. by rewrite (Hlen HF).
  - apply less_values_lexicographic.
  - intros (y & ys & ->). apply less_values_prefix.
  - intros -> Hne. destruct cs2; done.
Qed.

(** C10. Incrementing an iterator that equals end() does nothing: the
    null test comes before the link is followed, so whatever the store
    holds the increment succeeds, reads no node, and gives back the same
    iterator, which still equals end(). *)
Theorem iter_incr_end m it :
  iter_eqb it end_ = true →
  ∃ it', iter_incr it m = Some (it', m) ∧ it' = it ∧ iter_eqb it' end_ = true.
Proof.
  destruct it as [[a|]]; unfold iter_eqb; simpl; intros Hend.
  - discriminate.
  - exists (mkIt None). done.
Qed.

(** The test is what protects the increment: an iterator whose node is
    gone cannot be advanced. *)
Lemma iter_incr_dangling m a :
  m !! a = None → iter_incr (mkIt (Some a)) m = None.
Proof. intros Hm. unfold iter_incr, bind, get_next. simpl. by rewrite Hm. Qed.

(** * Further properties of the member functions *)

(** ** The stores the front and position operations produce *)

Lemma PushFront_store m this hv hn sz v :
  m !! this = Some (OList (mkList (mkNode hv hn) sz)) →
  PushFront this v m
  = Some (tt, <[this := OList (mkList (mkNode hv (Some (fresh (dom m))))
                                      (size_t_wrap (sz + 1)))]>
                (<[fresh (dom m) := ONode (mkNode v hn)]> m)).
Proof.
  intros Hm. pose proof (fresh_free m) as Hfree.
  assert (Hne : fresh (dom m) ≠ this) by congruence.
  unfold PushFront, bind, get_head_next, new_Node, set_head_next, get_size, set_size.
  rewrite Hm. simpl. simplify_map_eq. by rewrite !insert_insert_eq.
Qed.

Lemma PopFront_store m this hv b w nx sz :
  m !! this = Some (OList (mkList (mkNode hv (Some b)) sz)) →
  m !! b = Some (ONode (mkNode w nx)) →
  sz > 0 →
  PopFront this m
  = Some (tt, <[this := OList (mkList (mkNode hv nx) (size_t_wrap (sz - 1)))]>
                (delete b m)).
Proof.
  intros Hm Hmb Hsz. assert (Hne : b ≠ this) by congruence.
  unfold PopFront, assert, bind, get_head_next, get_next, set_head_next,
    delete_Node, get_size, set_size, ret.
  rewrite Hm. simpl. rewrite bool_decide_eq_true_2 by done. simpl.
  rewrite Hm. simpl. rewrite Hmb. simpl. simplify_map_eq.
  by rewrite !insert_insert_eq.
Qed.

Lemma InsertAfter_store m this lo p u nx v :
  m !! this = Some (OList lo) →
  m !! p = Some (ONode (mkNode u nx)) →
  InsertAfter this (mkIt (Some p)) v m
  = Some (mkIt (Some (fresh (dom m))),
          <[this := OList (mkList (head_ lo) (size_t_wrap (size_ lo + 1)))]>
            (<[p := ONode (mkNode u (Some (fresh (dom m))))]>
               (<[fresh (dom m) := ONode (mkNode v nx)]> m))).
Proof.
  intros Hm Hmp. pose proof (fresh_free m) as Hfree.
  assert (Hpthis : p ≠ this) by congruence.
  assert (Hathis : fresh (dom m) ≠ this) by congruence.
  assert (Hap : fresh (dom m) ≠ p) by congruence.
  unfold InsertAfter, iter_eqb, cbefore_begin. simpl.
  rewrite bool_decide_eq_false_2 by congruence.
  unfold bind, get_next, new_Node, set_next, get_size, set_size, ret.
  rewrite Hmp. simpl. by simplify_map_eq.
Qed.

Lemma EraseAfter_store m this lo p u b w nx :
  m !! this = Some (OList lo) →
  m !! p = Some (ONode (mkNode u (Some b))) →
  m !! b = Some (ONode (mkNode w nx)) →
  p ≠ b →
  EraseAfter this (mkIt (Some p)) m
  = Some (mkIt nx,
          <[this := OList (mkList (head_ lo) (size_t_wrap (size_ lo - 1)))]>
            (delete b (<[p := ONode (mkNode u nx)]> m))).
Proof.
  intros Hm Hmp Hmb Hpb.
  assert (Hpthis : p ≠ this) by congruence.
  assert (Hbthis : b ≠ this) by congruence.
  unfold EraseAfter. simpl.
  unfold assert, bind, get_next, set_next, delete_Node, get_size, set_size, ret.
  simpl. rewrite Hmp. simpl. rewrite Hmb. simpl. by simplify_map_eq.
Qed.

(** ** PushFront and PopFront *)

(** X1. PushFront(v) on any list puts v in front of the values already
    there and makes the size one larger; it reads and writes only the list
    object and the new node. *)
Theorem PushFront_contents_size m this cs sz v fuel :
  is_list m this cs sz →
  0 ≤ sz →
  sz + 1 < 2 ^ size_t_bits →
  (S (length cs) < fuel)%nat →
  ∃ a m',
    PushFront this v m = Some (tt, m') ∧
    m !! a = None ∧
    GetSize this m' = Some (sz + 1, m') ∧
    contents fuel this m' = Some (v :: cs.*2, m') ∧
    begin this m' = Some (mkIt (Some a), m') ∧
    iter_deref (mkIt (Some a)) m' = Some (v, m') ∧
    (∀ c, c ≠ this → c ≠ a → m' !! c = m !! c).
Proof.
  intros Hl Hsz0 Hsz1 Hfuel.
  destruct (PushFront_spec _ _ _ _ v Hl) as (a & m' & Hrun & Hfree & Hl' & Hfr).
  rewrite size_t_wrap_small in Hl' by lia.
  destruct (is_list_observe _ _ _ _ fuel Hl') as [Hsize Hcont]; [simpl; lia|].
  exists a, m'. split; [done|]. split; [done|]. split; [done|]. split; [done|].
  split; [by rewrite (begin_spec _ _ _ _ Hl')|]. split; [|done].
  destruct Hl' as (hv & hn & Hm & _ & nx & Hma & _). simpl in Hma.
  by eapply iter_deref_node.
Qed.

(** X2. PushFront(v) followed by PopFront() gives back the very store it
    started from: the list object is as before and the node made by the
    push is freed again. *)
Theorem PushFront_PopFront_roundtrip m this cs sz v :
  is_list m this cs sz →
  0 ≤ sz →
  sz + 1 < 2 ^ size_t_bits →
  ∃ m1, PushFront this v m = Some (tt, m1) ∧ PopFront this m1 = Some (tt, m).
Proof.
  intros (hv & hn & Hm & Hs) Hsz0 Hsz1.
  pose proof (fresh_free m) as Hfree. set (a := fresh (dom m)) in *.
  assert (Hne : a ≠ this) by congruence.
  eexists. split; [by apply PushFront_store|]. fold a.
  rewrite (PopFront_store _ this hv a v hn (size_t_wrap (sz + 1))).
  - do 2 f_equal. rewrite (size_t_wrap_small (sz + 1)) by lia.
    replace (sz + 1 - 1) with sz by lia. rewrite size_t_wrap_small by lia.
    apply map_eq. intros i.
    destruct (decide (i = this)) as [->|Hi]; [by simplify_map_eq|].
    destruct (decide (i = a)) as [->|Hia]; by simplify_map_eq.
  - by simplify_map_eq.
  - by simplify_map_eq.
  - rewrite size_t_wrap_small by lia. lia.
Qed.

(** ** InsertAfter and EraseAfter at a node *)

(** X3. InsertAfter(pos, v) at a node of the list: one new node holding v
    is linked right after that node, in front of its former successor;
    the values before and after keep their order, the size grows by one,
    and the iterator returned refers to the new node. *)
Theorem InsertAfter_at_node m this l0 p u l2 sz v fuel :
  is_list m this (l0 ++ (p, u) :: l2) sz →
  0 ≤ sz →
  sz + 1 < 2 ^ size_t_bits →
  (S (length (l0 ++ (p, u) :: l2)) < fuel)%nat →
  ∃ a m',
    InsertAfter this (mkIt (Some p)) v m = Some (mkIt (Some a), m') ∧
    m !! a = None ∧
    GetSize this m' = Some (sz + 1, m') ∧
    contents fuel this m' = Some (l0.*2 ++ u :: v :: l2.*2, m') ∧
    iter_deref (mkIt (Some a)) m' = Some (v, m') ∧
    iter_incr (mkIt (Some p)) m' = Some (mkIt (Some a), m') ∧
    iter_incr (mkIt (Some a)) m' = Some (mkIt (first_of l2), m') ∧
    (∀ c, c ≠ this → c ≠ a → c ≠ p → m' !! c = m !! c).
Proof.
  intros Hl Hsz0 Hsz1 Hfuel.
  destruct (InsertAfter_node _ _ _ _ _ _ _ v Hl)
    as (a & m' & Hrun & Hfree & Hl' & Hnxa & Hnxp & Hfr).
  rewrite size_t_wrap_small in Hl' by lia.
  destruct (is_list_observe _ _ _ _ fuel Hl') as [Hsize Hcont].
  { rewrite length_app in *. simpl in *. lia. }
  rewrite fmap_app in Hcont. simpl in Hcont.
  exists a, m'. split; [done|]. split; [done|]. split; [done|]. split; [done|].
  pose proof Hl' as (hv & hn & Hm & Hs).
  apply lseg_app in Hs as (r & _ & (_ & nxp & Hmp & -> & nxa & Hma & Hs2)).
  simpl in Hmp, Hma.
  split; [by eapply iter_deref_node|].
  split; [by eapply iter_incr_node|].
  split; [|done].
  rewrite (iter_incr_node _ _ _ _ Hma). by rewrite (lseg_null_first _ _ _ Hs2).
Qed.

(** X4. InsertAfter(pos, v) at a node followed by EraseAfter(pos) gives
    back the very store it started from. *)
Theorem InsertAfter_EraseAfter_roundtrip m this l0 p u l2 sz v :
  is_list m this (l0 ++ (p, u) :: l2) sz →
  0 ≤ sz →
  sz + 1 < 2 ^ size_t_bits →
  ∃ it m1,
    InsertAfter this (mkIt (Some p)) v m = Some (it, m1) ∧
    EraseAfter this (mkIt (Some p)) m1 = Some (mkIt (first_of l2), m).
Proof.
  intros (hv & hn & Hm & Hs) Hsz0 Hsz1.
  pose proof (lseg_not_object _ _ _ _ _ _ Hs Hm) as Hthis.
  apply lseg_app in Hs as (r & Hs0 & (-> & nx & Hmp & Hs2)). simpl in Hmp.
  pose proof (lseg_null_first _ _ _ Hs2) as Hnx. subst nx.
  pose proof (fresh_free m) as Hfree. set (a := fresh (dom m)) in *.
  assert (Hpthis : p ≠ this) by congruence.
  assert (Hathis : a ≠ this) by congruence.
  assert (Hap : a ≠ p) by congruence.
  do 2 eexists. split; [exact (InsertAfter_store m this _ p u _ v Hm Hmp)|]. fold a.
  rewrite (EraseAfter_store _ this (mkList (mkNode hv hn) (size_t_wrap (sz + 1)))
             p u a v (first_of l2)).
  - simpl. do 2 f_equal.
    rewrite (size_t_wrap_small (sz + 1)) by lia.
    replace (sz + 1 - 1) with sz by lia. rewrite size_t_wrap_small by lia.
    apply map_eq. intros i.
    destruct (decide (i = this)) as [->|Hi]; [by simplify_map_eq|].
    destruct (decide (i = a)) as [->|Hia]; [by simplify_map_eq|].
    destruct (decide (i = p)) as [->|Hip]; by simplify_map_eq.
  - by simplify_map_eq.
  - by simplify_map_eq.
  - by simplify_map_eq.
  - done.
Qed.

(** ** Iterators over a list *)

Lemma first_of_end cs : iter_eqb (mkIt (first_of cs)) end_ = true ↔ cs = [].
Proof.
  destruct cs as [|[a v] cs]; unfold iter_eqb, first_of; simpl.
  - done.
  - split; [|done]. intros H. discriminate.
Qed.

(** X5. begin() refers to the first node and equals end() exactly when the
    list has no node; cbegin() is the same position; before_begin() is
    never end(), and incrementing it gives begin(). *)
Theorem begin_positions m this cs sz :
  is_list m this cs sz →
  ∃ first,
    begin this m = Some (first, m) ∧
    cbegin this m = Some (first, m) ∧
    node_ first = first_of cs ∧
    (iter_eqb first end_ = true ↔ cs = []) ∧
    iter_eqb (before_begin this) end_ = false ∧
    iter_incr (before_begin this) m = Some (first, m).
Proof.
  intros Hl. exists (mkIt (first_of cs)).
  pose proof (begin_spec _ _ _ _ Hl) as Hb.
  split; [done|]. split; [exact Hb|]. split; [done|].
  split; [apply first_of_end|]. split; [done|].
  destruct Hl as (hv & hn & Hm & Hs).
  unfold iter_incr, before_begin, bind, get_next, ret. simpl.
  rewrite Hm. simpl. by rewrite (lseg_null_first _ _ _ Hs).
Qed.

(** X6. An iterator at a node of the list: dereferencing gives the value
    of that node, incrementing gives the position of the next node, which
    is end() exactly at the last node, and the post-increment hands back
    the old position next to the new one.  None of them changes the
    store. *)
Theorem iterator_at_node m this l1 a v l2 sz :
  is_list m this (l1 ++ (a, v) :: l2) sz →
  iter_deref (mkIt (Some a)) m = Some (v, m) ∧
  iter_incr (mkIt (Some a)) m = Some (mkIt (first_of l2), m) ∧
  iter_post_incr (mkIt (Some a)) m = Some ((mkIt (Some a), mkIt (first_of l2)), m) ∧
  (iter_eqb (mkIt (first_of l2)) end_ = true ↔ l2 = []) ∧
  iter_neqb (mkIt (Some a)) end_ = true.
Proof.
  intros (hv & hn & Hm & Hs).
  apply lseg_app in Hs as (r & _ & (_ & nx & Hma & Hs2)). simpl in Hma.
  rewrite (lseg_null_first _ _ _ Hs2) in Hma.
  pose proof (iter_incr_node _ _ _ _ Hma) as Hincr.
  split; [by eapply iter_deref_node|]. split; [done|].
  split; [|split; [apply first_of_end|done]].
  unfold iter_post_incr. by rewrite (bind_Some _ _ _ _ _ Hincr).
Qed.

(** ** Construction, Clear and destruction *)

Lemma IsEmpty_spec m this cs sz :
  is_list m this cs sz → IsEmpty this m = Some (bool_decide (sz = 0), m).
Proof.
  intros (hv & hn & Hm & Hs). unfold IsEmpty, bind, get_size, ret. by rewrite Hm.
Qed.

(** X7. The default constructor makes, at an address nothing lived at, an
    empty list: IsEmpty() holds, GetSize() is 0, begin() equals end(), a
    walk yields nothing; nothing else in the store changes. *)
Theorem ctor_default_empty m fuel :
  ∃ this m',
    ctor_default Type_default m = Some (this, m') ∧
    m !! this = None ∧
    IsEmpty this m' = Some (true, m') ∧
    GetSize this m' = Some (0, m') ∧
    begin this m' = Some (end_, m') ∧
    contents (S fuel) this m' = Some ([], m') ∧
    (∀ c, c ≠ this → m' !! c = m !! c).
Proof.
  destruct (new_object_spec m) as (this & Hnew & Hfree).
  pose proof (is_list_new m this) as Hl.
  eexists this, _. split; [exact Hnew|]. split; [done|].
  split; [by rewrite (IsEmpty_spec _ _ _ _ Hl)|].
  split; [by eapply GetSize_spec|].
  split; [by rewrite (begin_spec _ _ _ _ Hl)|].
  split.
  - destruct (is_list_observe _ _ _ _ (S fuel) Hl) as [_ Hc]; [simpl; lia|done].
  - intros c Hc. by rewrite lookup_insert_ne.
Qed.

(** X8. Clear(), whatever the list held and whatever its stored size was:
    afterwards IsEmpty() holds, GetSize() is 0, begin() equals end(),
    every node of the list is freed and nothing else in the store has
    changed. *)
Theorem Clear_empties m this cs sz fuel :
  is_list m this cs sz →
  (length cs < fuel)%nat →
  ∃ m',
    Clear fuel this m = Some (tt, m') ∧
    IsEmpty this m' = Some (true, m') ∧
    GetSize this m' = Some (0, m') ∧
    begin this m' = Some (end_, m') ∧
    contents fuel this m' = Some ([], m') ∧
    (∀ a, a ∈ cs.*1 → m' !! a = None) ∧
    (∀ c, c ≠ this → c ∉ cs.*1 → m' !! c = m !! c).
Proof.
  intros Hl Hfuel.
  destruct (Clear_spec _ _ _ _ _ Hl Hfuel) as (m' & Hrun & Hl' & Hgone & Hfr).
  exists m'. split; [done|].
  split; [by rewrite (IsEmpty_spec _ _ _ _ Hl')|].
  split; [by eapply GetSize_spec|].
  split; [by rewrite (begin_spec _ _ _ _ Hl')|].
  split; [|done].
  destruct (is_list_observe _ _ _ _ fuel Hl') as [_ Hc]; [simpl; lia|done].
Qed.

(** X9. The destructor frees every node of the list and the list object
    itself; every other object stays as it is, so a list that shares no
    node with the destroyed one is still the same list. *)
Theorem dtor_releases m this cs sz fuel :
  is_list m this cs sz →
  (length cs < fuel)%nat →
  ∃ m',
    dtor fuel this m = Some (tt, m') ∧
    m' !! this = None ∧
    (∀ a, a ∈ cs.*1 → m' !! a = None) ∧
    (∀ c, c ≠ this → c ∉ cs.*1 → m' !! c = m !! c) ∧
    (∀ other cs2 sz2,
       is_list m other cs2 sz2 → other ≠ this →
       (∀ a, a ∈ cs.*1 → a ∉ cs2.*1) →
       is_list m' other cs2 sz2).
Proof.
  intros Hl Hfuel.
  destruct (dtor_spec _ _ _ _ _ Hl Hfuel) as (m' & Hrun & Hthis & Hgone & Hfr).
  destruct (is_list_object _ _ _ _ Hl) as [lo Hlo].
  exists m'. split; [done|]. split; [done|]. split; [done|]. split; [done|].
  intros other cs2 sz2 Hl2 Hne Hdisj.
  pose proof (is_list_not_in _ _ _ _ _ _ Hl2 Hlo) as Hthis2.
  destruct (is_list_object _ _ _ _ Hl2) as [lo2 Hlo2].
  pose proof (is_list_not_in _ _ _ _ _ _ Hl Hlo2) as Hother.
  eapply is_list_frame; [done|by apply Hfr|].
  intros a Ha. apply Hfr.
  - by intros ->.
  - intros Hin. by apply (Hdisj _ Hin).
Qed.

(** ** swap *)

Lemma swap_store m this other hv1 hn1 sz1 hv2 hn2 sz2 :
  this ≠ other →
  m !! this = Some (OList (mkList (mkNode hv1 hn1) sz1)) →
  m !! other = Some (OList (mkList (mkNode hv2 hn2) sz2)) →
  swap this other m
  = Some (tt, <[other := OList (mkList (mkNode hv2 hn1) sz1)]>
                (<[this := OList (mkList (mkNode hv1 hn2) sz2)]> m)).
Proof.
  intros Hne Hm1 Hm2.
  unfold swap, bind, get_head_next, get_size, set_size, set_head_next.
  rewrite Hm1. simpl. rewrite Hm1. simpl. rewrite Hm2. simpl.
  simplify_map_eq. do 2 f_equal.
  apply map_eq. intros i.
  destruct (decide (i = other)) as [->|Hi]; [by simplify_map_eq|].
  destruct (decide (i = this)) as [->|Hj]; by simplify_map_eq.
Qed.

Lemma swap_self_store m this lo :
  m !! this = Some (OList lo) → swap this this m = Some (tt, m).
Proof.
  intros Hm. destruct lo as [[hv hn] sz].
  unfold swap, bind, get_head_next, get_size, set_size, set_head_next.
  rewrite Hm. simpl. simplify_map_eq. do 2 f_equal.
  apply map_eq. intros i.
  destruct (decide (i = this)) as [->|Hi]; by simplify_map_eq.
Qed.

(** X10. swap exchanges the contents and the sizes of two lists without
    allocating or freeing anything and without touching a node (positions
    into either chain stay what they were); swapping a second time gives
    back the very store it started from. *)
Theorem swap_exchanges m this other cs1 sz1 cs2 sz2 fuel :
  is_list m this cs1 sz1 →
  is_list m other cs2 sz2 →
  (length cs1 < fuel)%nat →
  (length cs2 < fuel)%nat →
  ∃ m',
    swap this other m = Some (tt, m') ∧
    is_list m' this cs2 sz2 ∧
    is_list m' other cs1 sz1 ∧
    GetSize this m' = Some (sz2, m') ∧
    GetSize other m' = Some (sz1, m') ∧
    contents fuel this m' = Some (cs2.*2, m') ∧
    contents fuel other m' = Some (cs1.*2, m') ∧
    dom m' = dom m ∧
    (∀ c, c ≠ this → c ≠ other → m' !! c = m !! c) ∧
    swap this other m' = Some (tt, m).
Proof.
  intros Hl1 Hl2 Hfuel1 Hfuel2.
  destruct (swap_spec _ _ _ _ _ _ _ Hl1 Hl2) as (m' & Hrun & Hl1' & Hl2' & Hfr).
  destruct (is_list_observe _ _ _ _ fuel Hl1' Hfuel2) as [Hsz1 Hc1].
  destruct (is_list_observe _ _ _ _ fuel Hl2' Hfuel1) as [Hsz2 Hc2].
  exists m'. do 7 (split; [done|]).
  destruct (is_list_object _ _ _ _ Hl1) as [lo1 Hlo1].
  destruct (is_list_object _ _ _ _ Hl2) as [lo2 Hlo2].
  destruct (is_list_object _ _ _ _ Hl1') as [lo1' Hlo1'].
  destruct (is_list_object _ _ _ _ Hl2') as [lo2' Hlo2'].
  split; [|split; [done|]].
  - apply set_eq. intros c. rewrite !elem_of_dom.
    destruct (decide (c = this)) as [->|Hc]; [by rewrite Hlo1, Hlo1'|].
    destruct (decide (c = other)) as [->|Hc']; [by rewrite Hlo2, Hlo2'|].
    by rewrite Hfr.
  - destruct (decide (this = other)) as [->|Hne].
    + rewrite (swap_self_store _ _ _ Hlo1) in Hrun. injection Hrun as <-.
      by eapply swap_self_store.
    + destruct lo1 as [[hv1 hn1] s1], lo2 as [[hv2 hn2] s2].
      rewrite (swap_store _ _ _ _ _ _ _ _ _ Hne Hlo1 Hlo2) in Hrun.
      injection Hrun as <-.
      rewrite (swap_store _ this other hv1 hn2 s2 hv2 hn1 s1 Hne)
        by by simplify_map_eq.
      do 2 f_equal. apply map_eq. intros i.
      destruct (decide (i = other)) as [->|Hi]; [by simplify_map_eq|].
      destruct (decide (i = this)) as [->|Hj]; by simplify_map_eq.
Qed.

(** X11. Swapping a list with itself leaves the store as it is. *)
Theorem swap_self m this cs sz :
  is_list m this cs sz → swap this this m = Some (tt, m).
Proof.
  intros Hl. destruct (is_list_object _ _ _ _ Hl) as [lo Hlo].
  by eapply swap_self_store.
Qed.

(** ** Assignment and the independence of copies *)

(** X12. Assignment from another list that shares no node with the
    target: the target ends up with nodes of its own holding the values of
    the source in order, and with the source's size, so that operator==
    holds between them (for a reflexive element equality); the source is
    as it was; the old nodes of the target and the temporary copy are
    released, so nothing is left in the store but what was there and the
    new nodes. *)
Theorem assign_from_other m this rhs cs1 sz1 cs2 sz2 fuel :
  is_list m this cs1 sz1 →
  is_list m rhs cs2 sz2 →
  this ≠ rhs →
  (∀ a, a ∈ cs1.*1 → a ∉ cs2.*1) →
  (length cs1 < fuel)%nat →
  (length cs2 < fuel)%nat →
  ∃ m' cs',
    assign Type_default fuel this rhs m = Some (this, m') ∧
    is_list m' this cs' sz2 ∧
    cs'.*2 = cs2.*2 ∧
    (∀ a, a ∈ cs'.*1 → m !! a = None) ∧
    is_list m' rhs cs2 sz2 ∧
    (∀ a, a ∈ cs1.*1 → m' !! a = None) ∧
    (∀ c, is_Some (m' !! c) → c ∈ cs'.*1 ∨ (is_Some (m !! c) ∧ c ∉ cs1.*1)) ∧
    GetSize this m' = Some (sz2, m') ∧
    contents fuel this m' = Some (cs2.*2, m') ∧
    ((∀ x, Type_eqb x x = true) → list_eq Type_eqb fuel this rhs m' = Some (true, m')).
Proof.
  intros Hl1 Hl2 Hne Hdisj Hfuel1 Hfuel2.
  destruct (is_list_object _ _ _ _ Hl1) as [o1 Ho1].
  destruct (is_list_object _ _ _ _ Hl2) as [o2 Ho2].
  destruct (ctor_copy_spec _ _ _ _ _ Hl2 Hfuel2)
    as (tmp & ma & cs' & Hcopy & Hfree & Hlt & Hvals & Hfresh & Hfra).
  assert (Htmp1 : this ≠ tmp) by congruence.
  assert (Htmp2 : rhs ≠ tmp) by congruence.
  assert (Hold : ∀ x cs sz a, is_list m x cs sz → a ∈ cs.*1 → a ≠ tmp ∧ a ∉ cs'.*1).
  { intros x cs sz a Hl Ha.
    destruct (is_list_node _ _ _ _ _ Hl Ha) as (v & nx & Hma).
    split; [congruence|]. intros Hin. apply Hfresh in Hin. congruence. }
  assert (Hobj : ∀ x o, m !! x = Some o → ma !! x = Some o).
  { intros x o Hml. rewrite Hfra; [done|congruence|].
    intros Hin. apply Hfresh in Hin. congruence. }
  assert (Hl1a : is_list ma this cs1 sz1).
  { eapply is_list_frame; [done|by rewrite (Hobj _ _ Ho1)|].
    intros a Ha. destruct (Hold _ _ _ _ Hl1 Ha). by apply Hfra. }
  destruct (swap_spec _ _ _ _ _ _ _ Hl1a Hlt) as (mb & Hswap & Hlb & Hltb & Hfrb).
  assert (Hl2b : is_list mb rhs cs2 sz2).
  { eapply is_list_frame; [done| |].
    - rewrite Hfrb by done. by rewrite (Hobj _ _ Ho2).
    - intros a Ha.
      destruct (is_list_node _ _ _ _ _ Hl2 Ha) as (v & nx & Hma).
      destruct (Hold _ _ _ _ Hl2 Ha). rewrite Hfrb by congruence. by apply Hfra. }
  destruct (dtor_spec _ _ _ _ _ Hltb Hfuel1) as (mc & Hdtor & Hgone & Hgone1 & Hfrc).
  pose proof (is_list_not_in _ _ _ _ _ _ Hl1 Ho1) as Hthis1.
  pose proof (is_list_not_in _ _ _ _ _ _ Hl1 Ho2) as Hrhs1.
  assert (Hl' : is_list mc this cs' sz2).
  { eapply is_list_frame; [done|by apply Hfrc|].
    intros a Ha. apply Hfrc.
    - destruct (is_list_object _ _ _ _ Hltb) as [ot Hot].
      destruct (is_list_node _ _ _ _ _ Hlb Ha) as (v & nx & Hma). congruence.
    - intros Hin. destruct (Hold _ _ _ _ Hl1 Hin). done. }
  assert (Hr' : is_list mc rhs cs2 sz2).
  { eapply is_list_frame; [done|by apply Hfrc|].
    intros a Ha. apply Hfrc.
    - destruct (Hold _ _ _ _ Hl2 Ha). done.
    - intros Hin. by apply (Hdisj _ Hin). }
  assert (Hlen : length cs' = length cs2).
  { rewrite <- (length_fmap snd cs'), Hvals. by rewrite length_fmap. }
  destruct (is_list_observe _ _ _ _ fuel Hl') as [Hsize Hcont]; [lia|].
  rewrite Hvals in Hcont.
  exists mc, cs'. split; [|do 5 (split; [done|]); split; [|split; [done|split; [done|]]]].
  - unfold assign. rewrite bool_decide_eq_true_2 by done.
    rewrite (bind_Some _ _ _ _ _ Hcopy).
    rewrite (bind_Some _ _ _ _ _ Hswap).
    by rewrite (bind_Some _ _ _ _ _ Hdtor).
  - intros c Hc.
    destruct (decide (c ∈ cs'.*1)) as [Hin|Hnin]; [by left|right].
    assert (Hc1 : c ∉ cs1.*1).
    { intros Hin. rewrite (Hgone1 _ Hin) in Hc. by destruct Hc. }
    split; [|done].
    destruct (decide (c = this)) as [->|Hcthis]; [by rewrite Ho1|].
    assert (Hctmp : c ≠ tmp).
    { intros ->. rewrite Hgone in Hc. by destruct Hc. }
    rewrite <- Hfra, <- Hfrb, <- Hfrc by done. done.
  - intros Hrefl.
    rewrite (list_eq_spec _ _ _ _ _ _ _ fuel Hl' Hr') by lia.
    by rewrite Hvals, equal_values_refl.
Qed.

(** X13. A copy is independent of its original: after copy-constructing,
    a PushFront on the copy and then a Clear of the copy change what a
    walk of the copy yields and leave the values and the size of the
    original as they were. *)
Theorem copy_is_independent m other cs sz v fuel :
  is_list m other cs sz →
  (S (length cs) < fuel)%nat →
  ∃ this m1 m2 m3,
    ctor_copy Type_default fuel other m = Some (this, m1) ∧
    PushFront this v m1 = Some (tt, m2) ∧
    contents fuel this m2 = Some (v :: cs.*2, m2) ∧
    contents fuel other m2 = Some (cs.*2, m2) ∧
    GetSize other m2 = Some (sz, m2) ∧
    Clear fuel this m2 = Some (tt, m3) ∧
    contents fuel this m3 = Some ([], m3) ∧
    contents fuel other m3 = Some (cs.*2, m3) ∧
    GetSize other m3 = Some (sz, m3).
Proof.
  intros Hl Hfuel.
  destruct (is_list_object _ _ _ _ Hl) as [lo Hlo].
  destruct (ctor_copy_spec _ _ _ _ fuel Hl) as
    (this & m1 & cs' & Hcopy & Hfree & Hl1 & Hvals & Hfresh & Hfr1); [lia|].
  assert (Hne : other ≠ this) by congruence.
  assert (Hlen : length cs' = length cs).
  { rewrite <- (length_fmap snd cs'), Hvals. by rewrite length_fmap. }
  assert (Hnode : ∀ a, a ∈ cs.*1 → a ≠ this ∧ a ∉ cs'.*1).
  { intros a Ha. destruct (is_list_node _ _ _ _ _ Hl Ha) as (w & nx & Hma).
    split; [congruence|]. intros Hin. apply Hfresh in Hin. congruence. }
  assert (Hother' : other ∉ cs'.*1).
  { intros Hin. apply Hfresh in Hin. congruence. }
  assert (Ho1 : is_list m1 other cs sz).
  { eapply is_list_frame; [done|by apply Hfr1|].
    intros a Ha. destruct (Hnode _ Ha). by apply Hfr1. }
  destruct (PushFront_spec _ _ _ _ v Hl1) as (a & m2 & Hpush & Hafree & Hl2 & Hfr2).
  assert (Hoa : other ≠ a).
  { intros ->. destruct (is_list_object _ _ _ _ Ho1) as [? ?]. congruence. }
  assert (Hnode2 : ∀ c, c ∈ cs.*1 → c ≠ a).
  { intros c Hc ->. destruct (is_list_node _ _ _ _ _ Ho1 Hc) as (? & ? & ?). congruence. }
  assert (Ho2 : is_list m2 other cs sz).
  { eapply is_list_frame; [done|by apply Hfr2|].
    intros c Hc. destruct (Hnode _ Hc). apply Hfr2; [done|by apply Hnode2]. }
  destruct (Clear_spec _ _ _ _ fuel Hl2) as (m3 & Hclear & Hl3 & Hgone & Hfr3).
  { simpl. lia. }
  assert (Ho3 : is_list m3 other cs sz).
  { eapply is_list_frame; [done| |].
    - apply Hfr3; [done|]. simpl. apply not_elem_of_cons. done.
    - intros c Hc. destruct (Hnode _ Hc). apply Hfr3; [done|].
      simpl. apply not_elem_of_cons. split; [by apply Hnode2|done]. }
  destruct (is_list_observe _ _ _ _ fuel Hl2) as [_ Hc2]; [simpl; lia|].
  destruct (is_list_observe _ _ _ _ fuel Ho2) as [Hs2 Hco2]; [lia|].
  destruct (is_list_observe _ _ _ _ fuel Hl3) as [_ Hc3]; [simpl; lia|].
  destruct (is_list_observe _ _ _ _ fuel Ho3) as [Hs3 Hco3]; [lia|].
  rewrite fmap_cons, Hvals in Hc2. simpl in Hc2.
  exists this, m1, m2, m3. repeat (split; [done|]). done.
Qed.

(** ** The comparison operators as relations *)

Lemma equal_values_sym xs ys :
  (∀ x y, Type_eqb x y = Type_eqb y x) →
  equal_values Type_eqb ys xs = equal_values Type_eqb xs ys.
Proof.
  intros Hsym. revert ys. induction xs as [|x xs IH]; intros [|y ys]; simpl; try done.
  by rewrite Hsym, IH.
Qed.

Lemma less_values_asym xs ys :
  (∀ x y, Type_ltb x y = true → Type_ltb y x = false) →
  less_values Type_ltb xs ys = true → less_values Type_ltb ys xs = false.
Proof.
  intros Hasym. revert ys. induction xs as [|x xs IH]; intros [|y ys]; simpl; try done.
  destruct (Type_ltb x y) eqn:Hxy.
  - intros _. by rewrite (Hasym _ _ Hxy).
  - destruct (Type_ltb y x); [done|]. apply IH.
Qed.

Lemma less_values_irrefl xs :
  (∀ x y, Type_ltb x y = true → Type_ltb y x = false) →
  less_values Type_ltb xs xs = false.
Proof.
  intros Hasym. destruct (less_values Type_ltb xs xs) eqn:H; [|done].
  pose proof (less_values_asym _ _ Hasym H). congruence.
Qed.

Lemma less_values_trans xs : ∀ ys zs,
  (∀ x y, Type_ltb x y = true → Type_ltb y x = false) →
  (∀ x y z, Type_ltb x y = false → Type_ltb y z = false → Type_ltb x z = false) →
  less_values Type_ltb xs ys = true →
  less_values Type_ltb ys zs = true →
  less_values Type_ltb xs zs = true.
Proof.
  induction xs as [|x xs IH]; intros [|y ys] [|z zs] Hasym Hneg; simpl; try done.
  destruct (Type_ltb x y) eqn:Hxy, (Type_ltb y x) eqn:Hyx,
    (Type_ltb y z) eqn:Hyz, (Type_ltb z y) eqn:Hzy,
    (Type_ltb x z) eqn:Hxz, (Type_ltb z x) eqn:Hzx; try done;
    try (by rewrite (Hasym _ _ Hxy) in Hyx);
    try (by rewrite (Hasym _ _ Hyz) in Hzy);
    try (by rewrite (Hasym _ _ Hxz) in Hzx);
    try (by rewrite (Hneg _ _ _ Hxz Hzy) in Hxy);
    try (by rewrite (Hneg _ _ _ Hyx Hxz) in Hyz);
    try (by rewrite (Hneg _ _ _ Hzy Hyx) in Hzx).
  by apply IH.
Qed.

Lemma equal_values_order xs ys :
  (∀ x y, Type_eqb x y = negb (Type_ltb x y) && negb (Type_ltb y x)) →
  equal_values Type_eqb xs ys
  = negb (less_values Type_ltb xs ys) && negb (less_values Type_ltb ys xs).
Proof.
  intros Heq. revert ys. induction xs as [|x xs IH]; intros [|y ys]; simpl; try done.
  rewrite Heq, IH.
  destruct (Type_ltb x y), (Type_ltb y x); done.
Qed.

(** X14. operator== between lists is reflexive when the element equality
    is, and symmetric when the element equality is; operator!= is its
    negation.  No comparison changes the store. *)
Theorem list_eq_reflexive_symmetric m lhs rhs cs1 sz1 cs2 sz2 fuel :
  is_list m lhs cs1 sz1 →
  is_list m rhs cs2 sz2 →
  (length cs1 < fuel)%nat →
  (length cs2 < fuel)%nat →
  ∃ e,
    list_eq Type_eqb fuel lhs rhs m = Some (e, m) ∧
    list_ne Type_eqb fuel lhs rhs m = Some (negb e, m) ∧
    ((∀ x, Type_eqb x x = true) → list_eq Type_eqb fuel lhs lhs m = Some (true, m)) ∧
    ((∀ x y, Type_eqb x y = Type_eqb y x) →
     list_eq Type_eqb fuel rhs lhs m = Some (e, m)).
Proof.
  intros Hl1 Hl2 Hfuel1 Hfuel2.
  pose proof (list_eq_spec _ _ _ _ _ _ _ fuel Hl1 Hl2 Hfuel1) as Heq.
  exists (equal_values Type_eqb cs1.*2 cs2.*2). split; [done|]. split; [|split].
  - unfold list_ne. by rewrite (bind_Some _ _ _ _ _ Heq).
  - intros Hrefl. rewrite (list_eq_spec _ _ _ _ _ _ _ fuel Hl1 Hl1 Hfuel1).
    by rewrite equal_values_refl.
  - intros Hsym. rewrite (list_eq_spec _ _ _ _ _ _ _ fuel Hl2 Hl1 Hfuel2).
    by rewrite equal_values_sym.
Qed.

(** X15. For an element order that is asymmetric and whose incomparable
    elements are the equal ones, the six operators fit together: of
    lhs < rhs, lhs == rhs and lhs > rhs exactly one holds, lhs <= rhs is
    the negation of lhs > rhs, and lhs >= rhs is the negation of
    lhs < rhs. *)
Theorem comparison_trichotomy m lhs rhs cs1 sz1 cs2 sz2 fuel :
  is_list m lhs cs1 sz1 →
  is_list m rhs cs2 sz2 →
  (length cs1 < fuel)%nat →
  (length cs2 < fuel)%nat →
  (∀ x y, Type_ltb x y = true → Type_ltb y x = false) →
  (∀ x y, Type_eqb x y = negb (Type_ltb x y) && negb (Type_ltb y x)) →
  ∃ lt e gt,
    list_lt Type_ltb fuel lhs rhs m = Some (lt, m) ∧
    list_eq Type_eqb fuel lhs rhs m = Some (e, m) ∧
    list_gt Type_ltb fuel lhs rhs m = Some (gt, m) ∧
    list_le Type_eqb Type_ltb fuel lhs rhs m = Some (negb gt, m) ∧
    list_ge Type_eqb Type_ltb fuel lhs rhs m = Some (negb lt, m) ∧
    ((lt = true ∧ e = false ∧ gt = false) ∨
     (lt = false ∧ e = true ∧ gt = false) ∨
     (lt = false ∧ e = false ∧ gt = true)).
Proof.
  intros Hl1 Hl2 Hfuel1 Hfuel2 Hasym Hequiv.
  pose proof (list_lt_spec _ _ _ _ _ _ _ fuel Hl1 Hl2 Hfuel1) as Hlt.
  pose proof (list_lt_spec _ _ _ _ _ _ _ fuel Hl2 Hl1 Hfuel2) as Hgt.
  pose proof (list_eq_spec _ _ _ _ _ _ _ fuel Hl1 Hl2 Hfuel1) as Heq.
  pose proof (equal_values_order cs1.*2 cs2.*2 Hequiv) as He.
  pose proof (less_values_asym cs1.*2 cs2.*2 Hasym) as Ha.
  exists (less_values Type_ltb cs1.*2 cs2.*2), (equal_values Type_eqb cs1.*2 cs2.*2),
    (less_values Type_ltb cs2.*2 cs1.*2).
  split; [done|]. split; [done|]. split; [done|].
  unfold list_le, list_ge, list_gt.
  rewrite (bind_Some _ _ _ _ _ Hlt), (bind_Some _ _ _ _ _ Hgt).
  destruct (less_values Type_ltb cs1.*2 cs2.*2), (less_values Type_ltb cs2.*2 cs1.*2);
    simpl in *; try (by specialize (Ha eq_refl));
    rewrite ?Heq, He; repeat split; auto.
Qed.

(** X16. For an element order that is asymmetric and negatively
    transitive (a strict weak order), operator< between lists is a strict
    order: no list is less than itself, two lists are never each less
    than the other, and less-than carries over a list in between. *)
Theorem list_lt_strict_order m a1 a2 a3 cs1 sz1 cs2 sz2 cs3 sz3 fuel :
  is_list m a1 cs1 sz1 →
  is_list m a2 cs2 sz2 →
  is_list m a3 cs3 sz3 →
  (length cs1 < fuel)%nat →
  (length cs2 < fuel)%nat →
  (∀ x y, Type_ltb x y = true → Type_ltb y x = false) →
  (∀ x y z, Type_ltb x y = false → Type_ltb y z = false → Type_ltb x z = false) →
  list_lt Type_ltb fuel a1 a1 m = Some (false, m) ∧
  (list_lt Type_ltb fuel a1 a2 m = Some (true, m) →
   list_lt Type_ltb fuel a2 a1 m = Some (false, m)) ∧
  (list_lt Type_ltb fuel a1 a2 m = Some (true, m) →
   list_lt Type_ltb fuel a2 a3 m = Some (true, m) →
   list_lt Type_ltb fuel a1 a3 m = Some (true, m)).
Proof.
  intros Hl1 Hl2 Hl3 Hfuel1 Hfuel2 Hasym Hneg.
  rewrite (list_lt_spec _ _ _ _ _ _ _ fuel Hl1 Hl1 Hfuel1).
  rewrite (list_lt_spec _ _ _ _ _ _ _ fuel Hl1 Hl2 Hfuel1).
  rewrite (list_lt_spec _ _ _ _ _ _ _ fuel Hl2 Hl1 Hfuel2).
  rewrite (list_lt_spec _ _ _ _ _ _ _ fuel Hl2 Hl3 Hfuel2).
  rewrite (list_lt_spec _ _ _ _ _ _ _ fuel Hl1 Hl3 Hfuel1).
  split; [by rewrite less_values_irrefl|]. split.
  - intros [= H]. by rewrite (less_values_asym _ _ Hasym H).
  - intros [= H12] [= H23]. by rewrite (less_values_trans _ _ _ Hasym Hneg H12 H23).
Qed.

(** ** MakeList on a list that already holds values *)

Lemma MakeList_drain_size tmp : ∀ m this cs sz,
  is_list m this cs sz →
  0 ≤ sz →
  sz + Z.of_nat (length tmp) < 2 ^ size_t_bits →
  ∃ m' cs', MakeList_drain this tmp m = Some (tt, m') ∧
            is_list m' this (cs' ++ cs) (sz + Z.of_nat (length tmp)) ∧
            cs'.*2 = rev tmp ∧
            (∀ a, a ∈ cs'.*1 → m !! a = None) ∧
            (∀ c, c ≠ this → c ∉ cs'.*1 → m' !! c = m !! c).
Proof.
  induction tmp as [|top tmp IH]; intros m this cs sz Hl Hsz0 Hsz1.
  - exists m, []. simpl. rewrite Z.add_0_r.
    split; [done|]. split; [done|]. split; [done|].
    split; [|done]. intros a Ha. by apply elem_of_nil in Ha.
  - simpl length in Hsz1. rewrite Nat2Z.inj_succ in Hsz1.
    destruct (PushFront_spec _ _ _ _ top Hl) as (a & m1 & Hpush & Hfree & Hl1 & Hfr1).
    rewrite size_t_wrap_small in Hl1 by lia.
    destruct (IH _ _ _ _ Hl1) as (m' & cs' & Hrun & Hl' & Hvals & Hfree' & Hfr'); [lia..|].
    pose proof Hl1 as (hv1 & hn1 & Hm1 & Hs1).
    pose proof Hs1 as (_ & nx1 & Hma & _). simpl in Hma.
    exists m', (cs' ++ [(a, top)]). split; [|split; [|split; [|split]]].
    + simpl. by rewrite (bind_Some _ _ _ _ _ Hpush).
    + rewrite <- app_assoc. simpl length. rewrite Nat2Z.inj_succ.
      replace (sz + Z.succ (Z.of_nat (length tmp)))
        with (sz + 1 + Z.of_nat (length tmp)) by lia.
      done.
    + rewrite fmap_app, Hvals. reflexivity.
    + intros c Hc. rewrite fmap_app in Hc. apply elem_of_app in Hc as [Hc|Hc].
      * pose proof (Hfree' _ Hc) as Hc1.
        rewrite <- Hfr1; [done| |]; intros ->; congruence.
      * simpl in Hc. apply list_elem_of_singleton in Hc. by subst c.
    + intros c Hc1 Hc2. rewrite fmap_app in Hc2.
      apply not_elem_of_app in Hc2 as [Hc2 Hc3].
      simpl in Hc3. apply not_elem_of_cons in Hc3 as [Hc3 _].
      rewrite Hfr' by done. by apply Hfr1.
Qed.

(** X17. MakeList over the range of an initializer list, on a list that
    may already hold values: the values of the range are put in front of
    the old ones, in the order of the range, each in a node of its own,
    and each is counted. *)
Theorem MakeList_prepends m this cs sz values fuel :
  is_list m this cs sz →
  0 ≤ sz →
  sz + Z.of_nat (length values) < 2 ^ size_t_bits →
  (length values + length cs < fuel)%nat →
  ∃ m' cs',
    MakeList fuel this (il_begin values) (il_end values) m = Some (tt, m') ∧
    is_list m' this (cs' ++ cs) (sz + Z.of_nat (length values)) ∧
    cs'.*2 = values ∧
    (∀ a, a ∈ cs'.*1 → m !! a = None) ∧
    GetSize this m' = Some (sz + Z.of_nat (length values), m') ∧
    contents fuel this m' = Some (values ++ cs.*2, m') ∧
    (∀ c, c ≠ this → c ∉ cs'.*1 → m' !! c = m !! c).
Proof.
  intros Hl Hsz0 Hsz1 Hfuel.
  destruct (MakeList_drain_size (rev values) _ _ _ _ Hl Hsz0)
    as (m' & cs' & Hrun & Hl' & Hvals & Hfree & Hfr).
  { by rewrite length_rev. }
  rewrite length_rev in Hl'. rewrite rev_involutive in Hvals.
  assert (Hlen : length cs' = length values).
  { rewrite <- Hvals. by rewrite length_fmap. }
  destruct (is_list_observe _ _ _ _ fuel Hl') as [Hsize Hcont].
  { rewrite length_app. lia. }
  rewrite fmap_app, Hvals in Hcont.
  exists m', cs'. split; [|done].
  unfold MakeList, il_begin. unfold bind at 1.
  rewrite MakeList_fill_array by lia.
  by rewrite drop_0, app_nil_r.
Qed.

(** ** Calls outside the contract *)

(** X18. What the asserts and the null pointer stop: EraseAfter at the
    last position of a list (the last node, or the sentinel of a list
    without nodes), EraseAfter and InsertAfter at end(), dereferencing
    end(), and PopFront on a list without nodes or with a stored size of
    0 have no result. *)
Theorem calls_outside_the_contract m this cs sz v :
  is_list m this cs sz →
  EraseAfter this (mkIt (anchor this cs)) m = None ∧
  EraseAfter this end_ m = None ∧
  InsertAfter this end_ v m = None ∧
  iter_deref end_ m = None ∧
  (cs = [] → PopFront this m = None) ∧
  (sz = 0 → PopFront this m = None).
Proof.
  intros Hl. pose proof Hl as (hv & hn & Hm & Hs).
  split; [|split; [done|split; [done|split; [done|split]]]].
  - destruct cs as [|[p u] l0 _] using rev_ind.
    + simpl in Hs. subst hn. rewrite anchor_nil.
      unfold EraseAfter, assert, bind, get_next, ret. simpl. by rewrite Hm.
    + rewrite anchor_snoc.
      apply lseg_app in Hs as (r & _ & (_ & nx & Hmp & Hnx)).
      simpl in Hmp, Hnx. subst nx.
      unfold EraseAfter, assert, bind, get_next, ret. simpl. by rewrite Hmp.
  - intros ->. simpl in Hs. subst hn.
    unfold PopFront, assert, bind, get_size, get_head_next, get_next, ret.
    rewrite Hm. simpl. destruct (bool_decide (sz > 0)); simpl; [|done].
    by rewrite Hm.
  - intros ->. unfold PopFront, assert, bind, get_size, ret. by rewrite Hm.
Qed.

(** ** Emptiness, and temporaries that leave no trace *)

(** X19. For a list whose stored size is its number of nodes, IsEmpty()
    holds exactly when the list has no node, that is, exactly when
    begin() equals end(). *)
Theorem IsEmpty_iff_no_node m this cs sz :
  is_list m this cs sz →
  size_matches cs sz →
  ∃ b first,
    IsEmpty this m = Some (b, m) ∧
    begin this m = Some (first, m) ∧
    (b = true ↔ cs = []) ∧
    (b = true ↔ iter_eqb first end_ = true).
Proof.
  intros Hl Hsz.
  exists (bool_decide (sz = 0)), (mkIt (first_of cs)).
  split; [by eapply IsEmpty_spec|]. split; [by eapply begin_spec|].
  assert (Hb : bool_decide (sz = 0) = true ↔ cs = []).
  { rewrite bool_decide_eq_true. unfold size_matches in Hsz. subst sz.
    destruct cs; simpl; split; intros H; try done; lia. }
  split; [done|]. by rewrite first_of_end.
Qed.

(** X20. A list that is copy-constructed and then destroyed leaves no
    trace: the store after the destructor is the store before the copy. *)
Theorem ctor_copy_dtor_roundtrip m other cs sz fuel :
  is_list m other cs sz →
  (length cs < fuel)%nat →
  ∃ this m1,
    ctor_copy Type_default fuel other m = Some (this, m1) ∧
    dtor fuel this m1 = Some (tt, m).
Proof.
  intros Hl Hfuel.
  destruct (ctor_copy_spec _ _ _ _ _ Hl Hfuel)
    as (this & m1 & cs' & Hcopy & Hfree & Hl1 & Hvals & Hfresh & Hfr1).
  assert (Hlen : length cs' = length cs).
  { rewrite <- (length_fmap snd cs'), Hvals. by rewrite length_fmap. }
  destruct (dtor_spec _ _ _ _ fuel Hl1) as (m2 & Hdtor & Hthis & Hgone & Hfr2); [lia|].
  exists this, m1. split; [done|]. rewrite Hdtor. do 2 f_equal.
  apply map_eq. intros c.
  destruct (decide (c = this)) as [->|Hc]; [congruence|].
  destruct (decide (c ∈ cs'.*1)) as [Hin|Hnin].
  - by rewrite (Hgone _ Hin), (Hfresh _ Hin).
  - rewrite Hfr2 by done. by apply Hfr1.
Qed.

(** X21. The same for a list constructed from an initializer list: after
    its destructor the store is what it was before the construction. *)
Theorem ctor_initializer_list_dtor_roundtrip m values fuel :
  (length values < fuel)%nat →
  ∃ this m1,
    ctor_initializer_list Type_default fuel values m = Some (this, m1) ∧
    dtor fuel this m1 = Some (tt, m).
Proof.
  intros Hfuel.
  destruct (ctor_initializer_list_spec m values fuel Hfuel)
    as (this & m1 & cs' & Hctor & Hfree & Hl1 & Hvals & Hfresh & Hfr1).
  assert (Hlen : length cs' = length values).
  { rewrite <- Hvals. by rewrite length_fmap. }
  destruct (dtor_spec _ _ _ _ fuel Hl1) as (m2 & Hdtor & Hthis & Hgone & Hfr2); [lia|].
  exists this, m1. split; [done|]. rewrite Hdtor. do 2 f_equal.
  apply map_eq. intros c.
  destruct (decide (c = this)) as [->|Hc]; [congruence|].
  destruct (decide (c ∈ cs'.*1)) as [Hin|Hnin].
  - by rewrite (Hgone _ Hin), (Hfresh _ Hin).
  - rewrite Hfr2 by done. by apply Hfr1.
Qed.

End Properties.

(** * The statements at concrete lists of integers *)

(** The scenario of the specification: from the values 1, 2, 3, an
    InsertAfter(begin(), 99) gives 1, 99, 2, 3 and size 4, and an
    EraseAfter(begin()) after it gives 1, 2, 3 and size 3 again. *)
Example insert_then_erase_after_begin :
  ∃ this m1 first it1 m2 it2 m3,
    ctor_initializer_list 0 4 [1; 2; 3] ∅ = Some (this, m1) ∧
    begin this m1 = Some (first, m1) ∧
    InsertAfter this first 99 m1 = Some (it1, m2) ∧
    contents 5 this m2 = Some ([1; 99; 2; 3], m2) ∧
    GetSize this m2 = Some (4, m2) ∧
    EraseAfter this first m2 = Some (it2, m3) ∧
    contents 5 this m3 = Some ([1; 2; 3], m3) ∧
    GetSize this m3 = Some (3, m3).
Proof.
  do 7 eexists.
  split; [by_evaluation|]. split; [by_evaluation|]. split; [by_evaluation|].
  split; [by_evaluation|]. split; [by_evaluation|]. split; [by_evaluation|].
  split; by_evaluation.
Qed.

(** C1. InsertAfter(before_begin(), v) against PushFront(v) on the empty
    list: both give the list holding just v, but GetSize() is 2 after the
    former and 1 after the latter. *)
Theorem InsertAfter_before_begin_vs_PushFront :
  ∃ m1 m2 it,
    PushFront 1 7 store_empty_list = Some (tt, m1) ∧
    InsertAfter 1 (before_begin 1) 7 store_empty_list = Some (it, m2) ∧
    contents 2 1 m1 = Some ([7], m1) ∧
    contents 2 1 m2 = Some ([7], m2) ∧
    GetSize 1 m1 = Some (1, m1) ∧
    GetSize 1 m2 = Some (2, m2).
Proof.
  do 3 eexists.
  split; [by_evaluation|]. split; [by_evaluation|].
  repeat split; by_evaluation.
Qed.

(** C2. After InsertAfter(before_begin(), v) on the empty list, whose
    stored size 0 is its number of nodes, one node hangs off the sentinel
    and the stored size is 2. *)
Theorem size_invariant_broken_by_InsertAfter :
  size_matches (@nil (addr * Z)) 0 ∧
  is_list store_empty_list 1 [] 0 ∧
  ∃ it m',
    InsertAfter 1 (before_begin 1) 7 store_empty_list = Some (it, m') ∧
    is_list m' 1 [(2%positive, 7)] 2 ∧
    ¬ size_matches [(2%positive, 7)] 2.
Proof.
  split; [reflexivity|]. split; [show_is_list 0 (@None addr)|].
  do 2 eexists. split; [by_evaluation|]. split.
  - show_is_list 0 (Some 2%positive).
  - unfold size_matches. simpl. lia.
Qed.

(** C3. InsertAfter(before_begin(), 99) on the list 1, 2, 3 of size 3: one
    node holding 99 is linked in front of the old first node and the
    iterator returned refers to it, but the size becomes 5. *)
Theorem InsertAfter_before_begin_size_plus_two :
  is_list store_123 1 nodes_123 3 ∧
  ∃ m',
    InsertAfter 1 (before_begin 1) 99 store_123 = Some (mkIt (Some 5%positive), m') ∧
    is_list m' 1 ((5%positive, 99) :: nodes_123) 5 ∧
    GetSize 1 m' = Some (3 + 2, m').
Proof.
  split; [show_is_list 0 (Some 2%positive)|].
  eexists. split; [by_evaluation|]. split.
  - show_is_list 0 (Some 5%positive).
  - by_evaluation.
Qed.

Lemma EraseAfter_removes_next_witness :
  is_list store_123 1 ([(2%positive, 1)] ++ (3%positive, 2) :: [(4%positive, 3)]) 3 ∧
  0 < 3 < 2 ^ size_t_bits ∧
  ∃ m',
    EraseAfter 1 (mkIt (anchor 1 [(2%positive, 1)])) store_123
    = Some (mkIt (first_of [(4%positive, 3)]), m') ∧
    is_list m' 1 ([(2%positive, 1)] ++ [(4%positive, 3)]) (3 - 1) ∧
    m' !! 3%positive = None ∧
    get_next (anchor 1 [(2%positive, 1)]) m' = Some (first_of [(4%positive, 3)], m') ∧
    (∀ c, c ≠ 1%positive → Some c ≠ anchor 1 [(2%positive, 1)] → c ≠ 3%positive →
          m' !! c = store_123 !! c).
Proof.
  assert (H1 : is_list store_123 1
                 ([(2%positive, 1)] ++ (3%positive, 2) :: [(4%positive, 3)]) 3).
  { show_is_list 0 (Some 2%positive). }
  assert (H2 : 0 < 3 < 2 ^ size_t_bits) by (vm_compute; split; reflexivity).
  split; [exact H1|]. split; [exact H2|].
  exact (EraseAfter_removes_next store_123 1 [(2%positive, 1)] 3%positive 2
           [(4%positive, 3)] 3 H1 H2).
Defined.

Lemma EraseAfter_before_begin_PopFront_witness :
  is_list store_123 1 nodes_123 3 ∧
  nodes_123 ≠ [] ∧
  3 > 0 ∧
  ∃ it m', EraseAfter 1 (before_begin 1) store_123 = Some (it, m') ∧
           PopFront 1 store_123 = Some (tt, m') ∧
           is_list m' 1 (tail nodes_123) (size_t_wrap (3 - 1)).
Proof.
  assert (H1 : is_list store_123 1 nodes_123 3).
  { show_is_list 0 (Some 2%positive). }
  assert (H2 : nodes_123 ≠ []) by (vm_compute; discriminate).
  assert (H3 : 3 > 0) by reflexivity.
  split; [exact H1|]. split; [exact H2|]. split; [exact H3|].
  exact (EraseAfter_before_begin_PopFront store_123 1 nodes_123 3 H1 H2 H3).
Defined.

Lemma ctor_initializer_list_order_size_witness :
  (length [1; 2; 3] < 4)%nat ∧
  ∃ this m', ctor_initializer_list 0 4 [1; 2; 3] ∅ = Some (this, m') ∧
             GetSize this m' = Some (Z.of_nat (length [1; 2; 3]), m') ∧
             contents 4 this m' = Some ([1; 2; 3], m').
Proof.
  assert (H1 : (length [1; 2; 3] < 4)%nat) by (simpl; lia).
  split; [exact H1|].
  exact (ctor_initializer_list_order_size 0 ∅ [1; 2; 3] 4 H1).
Defined.

Lemma ctor_copy_equal_witness :
  is_list store_123 1 nodes_123 3 ∧
  (length nodes_123 < 4)%nat ∧
  (∀ x, Z.eqb x x = true) ∧
  ∃ this m' cs',
    ctor_copy 0 4 1 store_123 = Some (this, m') ∧
    this ≠ 1%positive ∧
    is_list m' this cs' 3 ∧ cs'.*2 = nodes_123.*2 ∧
    (∀ a, a ∈ cs'.*1 → a ∉ nodes_123.*1) ∧
    is_list m' 1 nodes_123 3 ∧
    GetSize this m' = Some (3, m') ∧ GetSize 1 m' = Some (3, m') ∧
    contents 4 this m' = Some (nodes_123.*2, m') ∧
    contents 4 1 m' = Some (nodes_123.*2, m') ∧
    list_eq Z.eqb 4 this 1 m' = Some (true, m').
Proof.
  assert (H1 : is_list store_123 1 nodes_123 3).
  { show_is_list 0 (Some 2%positive). }
  assert (H2 : (length nodes_123 < 4)%nat) by (simpl; lia).
  assert (H3 : ∀ x, Z.eqb x x = true) by (intros x; lia).
  split; [exact H1|]. split; [exact H2|]. split; [exact H3|].
  exact (ctor_copy_equal 0 Z.eqb store_123 1 nodes_123 3 4 H1 H2 H3).
Defined.

Lemma comparison_operators_witness :
  is_list store_two_lists 1 nodes_12 2 ∧
  is_list store_two_lists 4 nodes_123' 3 ∧
  (length nodes_12 < 3)%nat ∧
  ∃ e lt,
    list_eq Z.eqb 3 1 4 store_two_lists = Some (e, store_two_lists) ∧
    list_lt Z.ltb 3 1 4 store_two_lists = Some (lt, store_two_lists) ∧
    (e = true ↔ length nodes_12 = length nodes_123' ∧
                Forall2 (λ x y, Z.eqb x y = true) nodes_12.*2 nodes_123'.*2) ∧
    (size_matches nodes_12 2 → size_matches nodes_123' 3 →
     (e = true ↔ 2 = 3 ∧ Forall2 (λ x y, Z.eqb x y = true) nodes_12.*2 nodes_123'.*2)) ∧
    (lt = true ↔ lexicographic_lt Z.ltb nodes_12.*2 nodes_123'.*2) ∧
    ((∃ y ys, nodes_123'.*2 = nodes_12.*2 ++ y :: ys) → lt = true) ∧
    (nodes_12 = [] → nodes_123' ≠ [] → lt = true).
Proof.
  assert (H1 : is_list store_two_lists 1 nodes_12 2).
  { show_is_list 0 (Some 2%positive). }
  assert (H2 : is_list store_two_lists 4 nodes_123' 3).
  { show_is_list 0 (Some 5%positive). }
  assert (H3 : (length nodes_12 < 3)%nat) by (simpl; lia).
  split; [exact H1|]. split; [exact H2|]. split; [exact H3|].
  exact (comparison_operators Z.eqb Z.ltb store_two_lists 1 4 nodes_12 2 nodes_123' 3 3
           H1 H2 H3).
Defined.

Lemma iter_incr_end_witness :
  iter_eqb end_ end_ = true ∧
  ∃ it', iter_incr end_ store_123 = Some (it', store_123) ∧
         it' = end_ ∧ iter_eqb it' end_ = true.
Proof.
  assert (H1 : iter_eqb end_ end_ = true) by reflexivity.
  split; [exact H1|].
  exact (iter_incr_end store_123 end_ H1).
Defined.

(** * The further properties at concrete lists of integers *)

Lemma PushFront_contents_size_witness :
  is_list store_123 1 nodes_123 3 ∧
  0 ≤ 3 ∧
  3 + 1 < 2 ^ size_t_bits ∧
  (S (length nodes_123) < 5)%nat ∧
  (∃ (a : addr) (m' : gmap addr (Obj Z)),
     PushFront 1 9 store_123 = Some ((), m')
     ∧ store_123 !! a = None
       ∧ GetSize 1 m' = Some (3 + 1, m')
         ∧ contents 5 1 m' = Some (9 :: nodes_123.*2, m')
           ∧ begin 1 m' = Some ({| node_ := Some a |}, m')
             ∧ iter_deref {| node_ := Some a |} m' = Some (9, m')
               ∧ ∀ c : addr, c ≠ 1%positive → c ≠ a → m' !! c = store_123 !! c).
Proof.
  assert (H1 : is_list store_123 1 nodes_123 3).
  { show_is_list 0 (Some 2%positive). }
  assert (H2 : 0 ≤ 3).
  { lia. }
  assert (H3 : 3 + 1 < 2 ^ size_t_bits).
  { by_evaluation. }
  assert (H4 : (S (length nodes_123) < 5)%nat).
  { simpl; lia. }
  split; [exact H1|].
  split; [exact H2|].
  split; [exact H3|].
  split; [exact H4|].
  exact (PushFront_contents_size store_123 1%positive nodes_123 3 9 5%nat H1 H2 H3 H4).
Defined.

Lemma PushFront_PopFront_roundtrip_witness :
  is_list store_123 1 nodes_123 3 ∧
  0 ≤ 3 ∧
  3 + 1 < 2 ^ size_t_bits ∧
  (∃ m1 : gmap addr (Obj Z),
     PushFront 1 9 store_123 = Some ((), m1) ∧ PopFront 1 m1 = Some ((), store_123)).
Proof.
  assert (H1 : is_list store_123 1 nodes_123 3).
  { show_is_list 0 (Some 2%positive). }
  assert (H2 : 0 ≤ 3).
  { lia. }
  assert (H3 : 3 + 1 < 2 ^ size_t_bits).
  { by_evaluation. }
  split; [exact H1|].
  split; [exact H2|].
  split; [exact H3|].
  exact (PushFront_PopFront_roundtrip store_123 1%positive nodes_123 3 9 H1 H2 H3).
Defined.

Lemma InsertAfter_at_node_witness :
  is_list store_123 1 ([(2%positive, 1)] ++ (3%positive, 2) :: [(4%positive, 3)]) 3 ∧
  0 ≤ 3 ∧
  3 + 1 < 2 ^ size_t_bits ∧
  (S (length ([(2%positive, 1)] ++ (3%positive, 2) :: [(4%positive, 3)])) < 6)%nat ∧
  (∃ (a : addr) (m' : gmap addr (Obj Z)),
     InsertAfter 1 {| node_ := Some 3%positive |} 9 store_123 = Some ({| node_ := Some a |}, m')
     ∧ store_123 !! a = None
       ∧ GetSize 1 m' = Some (3 + 1, m')
         ∧ contents 6 1 m' = Some ([(2%positive, 1)].*2 ++ 2 :: 9 :: [(4%positive, 3)].*2, m')
           ∧ iter_deref {| node_ := Some a |} m' = Some (9, m')
             ∧ iter_incr {| node_ := Some 3%positive |} m' = Some ({| node_ := Some a |}, m')
               ∧ iter_incr {| node_ := Some a |} m' =
                 Some ({| node_ := first_of [(4%positive, 3)] |}, m')
                 ∧ ∀ c : addr, c ≠ 1%positive → c ≠ a → c ≠ 3%positive → m' !! c = store_123 !! c).
Proof.
  assert (H1 : is_list store_123 1 ([(2%positive, 1)] ++ (3%positive, 2) :: [(4%positive, 3)]) 3).
  { show_is_list 0 (Some 2%positive). }
  assert (H2 : 0 ≤ 3).
  { lia. }
  assert (H3 : 3 + 1 < 2 ^ size_t_bits).
  { by_evaluation. }
  assert (H4 : (S (length ([(2%positive, 1)] ++ (3%positive, 2) :: [(4%positive, 3)])) < 6)%nat).
  { simpl; lia. }
  split; [exact H1|].
  split; [exact H2|].
  split; [exact H3|].
  split; [exact H4|].
  exact (InsertAfter_at_node store_123 1%positive [(2%positive, 1)] 3%positive 2 [(4%positive,
           3)] 3 9 6%nat
           H1 H2 H3 H4).
Defined.

Lemma InsertAfter_EraseAfter_roundtrip_witness :
  is_list store_123 1 ([(2%positive, 1)] ++ (3%positive, 2) :: [(4%positive, 3)]) 3 ∧
  0 ≤ 3 ∧
  3 + 1 < 2 ^ size_t_bits ∧
  (∃ (it : BasicIterator) (m1 : gmap addr (Obj Z)),
     InsertAfter 1 {| node_ := Some 3%positive |} 9 store_123 = Some (it, m1)
     ∧ EraseAfter 1 {| node_ := Some 3%positive |} m1 =
       Some ({| node_ := first_of [(4%positive, 3)] |}, store_123)).
Proof.
  assert (H1 : is_list store_123 1 ([(2%positive, 1)] ++ (3%positive, 2) :: [(4%positive, 3)]) 3).
  { show_is_list 0 (Some 2%positive). }
  assert (H2 : 0 ≤ 3).
  { lia. }
  assert (H3 : 3 + 1 < 2 ^ size_t_bits).
  { by_evaluation. }
  split; [exact H1|].
  split; [exact H2|].
  split; [exact H3|].
  exact (InsertAfter_EraseAfter_roundtrip store_123 1%positive [(2%positive, 1)] 3%positive 2
           [(4%positive, 3)] 3 9
           H1 H2 H3).
Defined.

Lemma begin_positions_witness :
  is_list store_123 1 nodes_123 3 ∧
  (∃ first : BasicIterator,
     begin 1 store_123 = Some (first, store_123)
     ∧ cbegin 1 store_123 = Some (first, store_123)
       ∧ node_ first = first_of nodes_123
         ∧ (iter_eqb first end_ = true ↔ nodes_123 = [])
           ∧ iter_eqb (before_begin 1) end_ = false
             ∧ iter_incr (before_begin 1) store_123 = Some (first, store_123)).
Proof.
  assert (H1 : is_list store_123 1 nodes_123 3).
  { show_is_list 0 (Some 2%positive). }
  split; [exact H1|].
  exact (begin_positions store_123 1%positive nodes_123 3 H1).
Defined.

Lemma iterator_at_node_witness :
  is_list store_123 1 ([(2%positive, 1)] ++ (3%positive, 2) :: [(4%positive, 3)]) 3 ∧
  (iter_deref {| node_ := Some 3%positive |} store_123 = Some (2, store_123)
   ∧ iter_incr {| node_ := Some 3%positive |} store_123 =
     Some ({| node_ := first_of [(4%positive, 3)] |}, store_123)
     ∧ iter_post_incr {| node_ := Some 3%positive |} store_123 =
       Some
         ({| node_ := Some 3%positive |}, {| node_ := first_of [(4%positive, 3)] |}, store_123)
       ∧ (iter_eqb {| node_ := first_of [(4%positive, 3)] |} end_ = true ↔ [(4%positive, 3)] = [])
         ∧ iter_neqb {| node_ := Some 3%positive |} end_ = true).
Proof.
  assert (H1 : is_list store_123 1 ([(2%positive, 1)] ++ (3%positive, 2) :: [(4%positive, 3)]) 3).
  { show_is_list 0 (Some 2%positive). }
  split; [exact H1|].
  exact (iterator_at_node store_123 1%positive [(2%positive, 1)] 3%positive 2 [(4%positive, 3)] 3
           H1).
Defined.

Lemma Clear_empties_witness :
  is_list store_123 1 nodes_123 3 ∧
  (length nodes_123 < 4)%nat ∧
  (∃ m' : gmap addr (Obj Z),
     Clear 4 1 store_123 = Some ((), m')
     ∧ IsEmpty 1 m' = Some (true, m')
       ∧ GetSize 1 m' = Some (0, m')
         ∧ begin 1 m' = Some (end_, m')
           ∧ contents 4 1 m' = Some ([], m')
             ∧ (∀ a : addr, a ∈ nodes_123.*1 → m' !! a = None)
               ∧ ∀ c : addr, c ≠ 1%positive → c ∉ nodes_123.*1 → m' !! c = store_123 !! c).
Proof.
  assert (H1 : is_list store_123 1 nodes_123 3).
  { show_is_list 0 (Some 2%positive). }
  assert (H2 : (length nodes_123 < 4)%nat).
  { simpl; lia. }
  split; [exact H1|].
  split; [exact H2|].
  exact (Clear_empties store_123 1%positive nodes_123 3 4%nat H1 H2).
Defined.

Lemma dtor_releases_witness :
  is_list store_123 1 nodes_123 3 ∧
  (length nodes_123 < 4)%nat ∧
  (∃ m' : gmap addr (Obj Z),
     dtor 4 1 store_123 = Some ((), m')
     ∧ m' !! 1%positive = None
       ∧ (∀ a : addr, a ∈ nodes_123.*1 → m' !! a = None)
         ∧ (∀ c : addr, c ≠ 1%positive → c ∉ nodes_123.*1 → m' !! c = store_123 !! c)
           ∧ ∀ (other : addr) (cs2 : list (addr * Z)) (sz2 : Z),
               is_list store_123 other cs2 sz2
               → other ≠ 1%positive
                 → (∀ a : addr, a ∈ nodes_123.*1 → a ∉ cs2.*1) → is_list m' other cs2 sz2).
Proof.
  assert (H1 : is_list store_123 1 nodes_123 3).
  { show_is_list 0 (Some 2%positive). }
  assert (H2 : (length nodes_123 < 4)%nat).
  { simpl; lia. }
  split; [exact H1|].
  split; [exact H2|].
  exact (dtor_releases store_123 1%positive nodes_123 3 4%nat H1 H2).
Defined.

Lemma swap_exchanges_witness :
  is_list store_two_lists 1 nodes_12 2 ∧
  is_list store_two_lists 4 nodes_123' 3 ∧
  (length nodes_12 < 4)%nat ∧
  (length nodes_123' < 4)%nat ∧
  (∃ m' : gmap addr (Obj Z),
     swap 1 4 store_two_lists = Some ((), m')
     ∧ is_list m' 1 nodes_123' 3
       ∧ is_list m' 4 nodes_12 2
         ∧ GetSize 1 m' = Some (3, m')
           ∧ GetSize 4 m' = Some (2, m')
             ∧ contents 4 1 m' = Some (nodes_123'.*2, m')
               ∧ contents 4 4 m' = Some (nodes_12.*2, m')
                 ∧ dom m' = dom store_two_lists
                   ∧ (∀ c : addr,
                        c ≠ 1%positive → c ≠ 4%positive → m' !! c = store_two_lists !! c)
                     ∧ swap 1 4 m' = Some ((), store_two_lists)).
Proof.
  assert (H1 : is_list store_two_lists 1 nodes_12 2).
  { show_is_list 0 (Some 2%positive). }
  assert (H2 : is_list store_two_lists 4 nodes_123' 3).
  { show_is_list 0 (Some 5%positive). }
  assert (H3 : (length nodes_12 < 4)%nat).
  { simpl; lia. }
  assert (H4 : (length nodes_123' < 4)%nat).
  { simpl; lia. }
  split; [exact H1|].
  split; [exact H2|].
  split; [exact H3|].
  split; [exact H4|].
  exact (swap_exchanges store_two_lists 1%positive 4%positive nodes_12 2 nodes_123' 3 4%nat
           H1 H2 H3 H4).
Defined.

Lemma swap_self_witness :
  is_list store_123 1 nodes_123 3 ∧
  (swap 1 1 store_123 = Some ((), store_123)).
Proof.
  assert (H1 : is_list store_123 1 nodes_123 3).
  { show_is_list 0 (Some 2%positive). }
  split; [exact H1|].
  exact (swap_self store_123 1%positive nodes_123 3 H1).
Defined.

Lemma assign_from_other_witness :
  is_list store_two_lists 1 nodes_12 2 ∧
  is_list store_two_lists 4 nodes_123' 3 ∧
  1%positive ≠ 4%positive ∧
  (∀ a : addr, a ∈ nodes_12.*1 → a ∉ nodes_123'.*1) ∧
  (length nodes_12 < 4)%nat ∧
  (length nodes_123' < 4)%nat ∧
  (∃ (m' : gmap addr (Obj Z)) (cs' : list (addr * Z)),
     assign 0 4 1 4 store_two_lists = Some (1%positive, m')
     ∧ is_list m' 1 cs' 3
       ∧ cs'.*2 = nodes_123'.*2
         ∧ (∀ a : addr, a ∈ cs'.*1 → store_two_lists !! a = None)
           ∧ is_list m' 4 nodes_123' 3
             ∧ (∀ a : addr, a ∈ nodes_12.*1 → m' !! a = None)
               ∧ (∀ c : addr,
                    is_Some (m' !! c)
                    → c ∈ cs'.*1 ∨ is_Some (store_two_lists !! c) ∧ c ∉ nodes_12.*1)
                 ∧ GetSize 1 m' = Some (3, m')
                   ∧ contents 4 1 m' = Some (nodes_123'.*2, m')
                     ∧ ((∀ x : Z, (x =? x) = true)
                        → list_eq Z.eqb 4 1 4 m' = Some (true, m'))).
Proof.
  assert (H1 : is_list store_two_lists 1 nodes_12 2).
  { show_is_list 0 (Some 2%positive). }
  assert (H2 : is_list store_two_lists 4 nodes_123' 3).
  { show_is_list 0 (Some 5%positive). }
  assert (H3 : 1%positive ≠ 4%positive).
  { discriminate. }
  assert (H4 : ∀ a : addr, a ∈ nodes_12.*1 → a ∉ nodes_123'.*1).
  { intros a Ha Hb; apply list_elem_of_In in Ha, Hb; compute in Ha, Hb;
    intuition (subst; discriminate). }
  assert (H5 : (length nodes_12 < 4)%nat).
  { simpl; lia. }
  assert (H6 : (length nodes_123' < 4)%nat).
  { simpl; lia. }
  split; [exact H1|].
  split; [exact H2|].
  split; [exact H3|].
  split; [exact H4|].
  split; [exact H5|].
  split; [exact H6|].
  exact (assign_from_other 0 Z.eqb store_two_lists 1%positive 4%positive nodes_12 2 nodes_123'
           3 4%nat
           H1 H2 H3 H4 H5 H6).
Defined.

Lemma copy_is_independent_witness :
  is_list store_123 1 nodes_123 3 ∧
  (S (length nodes_123) < 5)%nat ∧
  (∃ (this : addr) (m1 m2 m3 : gmap addr (Obj Z)),
     ctor_copy 0 5 1 store_123 = Some (this, m1)
     ∧ PushFront this 9 m1 = Some ((), m2)
       ∧ contents 5 this m2 = Some (9 :: nodes_123.*2, m2)
         ∧ contents 5 1 m2 = Some (nodes_123.*2, m2)
           ∧ GetSize 1 m2 = Some (3, m2)
             ∧ Clear 5 this m2 = Some ((), m3)
               ∧ contents 5 this m3 = Some ([], m3)
                 ∧ contents 5 1 m3 = Some (nodes_123.*2, m3) ∧ GetSize 1 m3 = Some (3, m3)).
Proof.
  assert (H1 : is_list store_123 1 nodes_123 3).
  { show_is_list 0 (Some 2%positive). }
  assert (H2 : (S (length nodes_123) < 5)%nat).
  { simpl; lia. }
  split; [exact H1|].
  split; [exact H2|].
  exact (copy_is_independent 0 store_123 1%positive nodes_123 3 9 5%nat H1 H2).
Defined.

Lemma list_eq_reflexive_symmetric_witness :
  is_list store_two_lists 1 nodes_12 2 ∧
  is_list store_two_lists 4 nodes_123' 3 ∧
  (length nodes_12 < 4)%nat ∧
  (length nodes_123' < 4)%nat ∧
  (∃ e : bool,
     list_eq Z.eqb 4 1 4 store_two_lists = Some (e, store_two_lists)
     ∧ list_ne Z.eqb 4 1 4 store_two_lists = Some (negb e, store_two_lists)
       ∧ ((∀ x : Z, (x =? x) = true)
          → list_eq Z.eqb 4 1 1 store_two_lists = Some (true, store_two_lists))
         ∧ ((∀ x y : Z, (x =? y) = (y =? x))
            → list_eq Z.eqb 4 4 1 store_two_lists = Some (e, store_two_lists))).
Proof.
  assert (H1 : is_list store_two_lists 1 nodes_12 2).
  { show_is_list 0 (Some 2%positive). }
  assert (H2 : is_list store_two_lists 4 nodes_123' 3).
  { show_is_list 0 (Some 5%positive). }
  assert (H3 : (length nodes_12 < 4)%nat).
  { simpl; lia. }
  assert (H4 : (length nodes_123' < 4)%nat).
  { simpl; lia. }
  split; [exact H1|].
  split; [exact H2|].
  split; [exact H3|].
  split; [exact H4|].
  exact (list_eq_reflexive_symmetric Z.eqb store_two_lists 1%positive 4%positive nodes_12 2
           nodes_123' 3 4%nat
           H1 H2 H3 H4).
Defined.

Lemma comparison_trichotomy_witness :
  is_list store_two_lists 1 nodes_12 2 ∧
  is_list store_two_lists 4 nodes_123' 3 ∧
  (length nodes_12 < 4)%nat ∧
  (length nodes_123' < 4)%nat ∧
  (∀ x y : Z, Z.ltb x y = true → Z.ltb y x = false) ∧
  (∀ x y : Z, Z.eqb x y = negb (Z.ltb x y) && negb (Z.ltb y x)) ∧
  (∃ lt e gt : bool,
     list_lt Z.ltb 4 1 4 store_two_lists = Some (lt, store_two_lists)
     ∧ list_eq Z.eqb 4 1 4 store_two_lists = Some (e, store_two_lists)
       ∧ list_gt Z.ltb 4 1 4 store_two_lists = Some (gt, store_two_lists)
         ∧ list_le Z.eqb Z.ltb 4 1 4 store_two_lists = Some (negb gt, store_two_lists)
           ∧ list_ge Z.eqb Z.ltb 4 1 4 store_two_lists = Some (negb lt, store_two_lists)
             ∧ (lt = true ∧ e = false ∧ gt = false
                ∨ lt = false ∧ e = true ∧ gt = false ∨ lt = false ∧ e = false ∧ gt = true)).
Proof.
  assert (H1 : is_list store_two_lists 1 nodes_12 2).
  { show_is_list 0 (Some 2%positive). }
  assert (H2 : is_list store_two_lists 4 nodes_123' 3).
  { show_is_list 0 (Some 5%positive). }
  assert (H3 : (length nodes_12 < 4)%nat).
  { simpl; lia. }
  assert (H4 : (length nodes_123' < 4)%nat).
  { simpl; lia. }
  assert (H5 : ∀ x y : Z, Z.ltb x y = true → Z.ltb y x = false).
  { intros x y; lia. }
  assert (H6 : ∀ x y : Z, Z.eqb x y = negb (Z.ltb x y) && negb (Z.ltb y x)).
  { intros x y; destruct (Z.eqb_spec x y), (Z.ltb_spec x y), (Z.ltb_spec y x);
      simpl; try reflexivity; lia. }
  split; [exact H1|].
  split; [exact H2|].
  split; [exact H3|].
  split; [exact H4|].
  split; [exact H5|].
  split; [exact H6|].
  exact (comparison_trichotomy Z.eqb Z.ltb store_two_lists 1%positive 4%positive nodes_12 2
           nodes_123' 3 4%nat
           H1 H2 H3 H4 H5 H6).
Defined.

Lemma list_lt_strict_order_witness :
  is_list store_two_lists 1 nodes_12 2 ∧
  is_list store_two_lists 4 nodes_123' 3 ∧
  is_list store_two_lists 1 nodes_12 2 ∧
  (length nodes_12 < 4)%nat ∧
  (length nodes_123' < 4)%nat ∧
  (∀ x y : Z, Z.ltb x y = true → Z.ltb y x = false) ∧
  (∀ x y z : Z, Z.ltb x y = false → Z.ltb y z = false → Z.ltb x z = false) ∧
  (list_lt Z.ltb 4 1 1 store_two_lists = Some (false, store_two_lists)
   ∧ (list_lt Z.ltb 4 1 4 store_two_lists = Some (true, store_two_lists)
      → list_lt Z.ltb 4 4 1 store_two_lists = Some (false, store_two_lists))
     ∧ (list_lt Z.ltb 4 1 4 store_two_lists = Some (true, store_two_lists)
        → list_lt Z.ltb 4 4 1 store_two_lists = Some (true, store_two_lists)
          → list_lt Z.ltb 4 1 1 store_two_lists = Some (true, store_two_lists))).
Proof.
  assert (H1 : is_list store_two_lists 1 nodes_12 2).
  { show_is_list 0 (Some 2%positive). }
  assert (H2 : is_list store_two_lists 4 nodes_123' 3).
  { show_is_list 0 (Some 5%positive). }
  assert (H3 : is_list store_two_lists 1 nodes_12 2).
  { show_is_list 0 (Some 2%positive). }
  assert (H4 : (length nodes_12 < 4)%nat).
  { simpl; lia. }
  assert (H5 : (length nodes_123' < 4)%nat).
  { simpl; lia. }
  assert (H6 : ∀ x y : Z, Z.ltb x y = true → Z.ltb y x = false).
  { intros x y; lia. }
  assert (H7 : ∀ x y z : Z, Z.ltb x y = false → Z.ltb y z = false → Z.ltb x z = false).
  { intros x y z; lia. }
  split; [exact H1|].
  split; [exact H2|].
  split; [exact H3|].
  split; [exact H4|].
  split; [exact H5|].
  split; [exact H6|].
  split; [exact H7|].
  exact (list_lt_strict_order Z.ltb store_two_lists 1%positive 4%positive 1%positive nodes_12 2
           nodes_123' 3 nodes_12 2 4%nat
           H1 H2 H3 H4 H5 H6 H7).
Defined.

Lemma MakeList_prepends_witness :
  is_list store_123 1 nodes_123 3 ∧
  0 ≤ 3 ∧
  3 + Z.of_nat (length [7; 8]) < 2 ^ size_t_bits ∧
  (length [7; 8] + length nodes_123 < 6)%nat ∧
  (∃ (m' : gmap addr (Obj Z)) (cs' : list (addr * Z)),
     MakeList 6 1 (il_begin [7; 8]) (il_end [7; 8]) store_123 = Some ((), m')
     ∧ is_list m' 1 (cs' ++ nodes_123) (3 + Z.of_nat (length [7; 8]))
       ∧ cs'.*2 = [7; 8]
         ∧ (∀ a : addr, a ∈ cs'.*1 → store_123 !! a = None)
           ∧ GetSize 1 m' = Some (3 + Z.of_nat (length [7; 8]), m')
             ∧ contents 6 1 m' = Some ([7; 8] ++ nodes_123.*2, m')
               ∧ ∀ c : addr, c ≠ 1%positive → c ∉ cs'.*1 → m' !! c = store_123 !! c).
Proof.
  assert (H1 : is_list store_123 1 nodes_123 3).
  { show_is_list 0 (Some 2%positive). }
  assert (H2 : 0 ≤ 3).
  { lia. }
  assert (H3 : 3 + Z.of_nat (length [7; 8]) < 2 ^ size_t_bits).
  { by_evaluation. }
  assert (H4 : (length [7; 8] + length nodes_123 < 6)%nat).
  { simpl; lia. }
  split; [exact H1|].
  split; [exact H2|].
  split; [exact H3|].
  split; [exact H4|].
  exact (MakeList_prepends store_123 1%positive nodes_123 3 [7; 8] 6%nat H1 H2 H3 H4).
Defined.

Lemma calls_outside_the_contract_witness :
  is_list store_123 1 nodes_123 3 ∧
  (EraseAfter 1 {| node_ := anchor 1 nodes_123 |} store_123 = None
   ∧ EraseAfter 1 end_ store_123 = None
     ∧ InsertAfter 1 end_ 9 store_123 = None
       ∧ iter_deref end_ store_123 = None
         ∧ (nodes_123 = [] → PopFront 1 store_123 = None) ∧ (3 = 0 → PopFront 1 store_123 = None)).
Proof.
  assert (H1 : is_list store_123 1 nodes_123 3).
  { show_is_list 0 (Some 2%positive). }
  split; [exact H1|].
  exact (calls_outside_the_contract store_123 1%positive nodes_123 3 9 H1).
Defined.

Lemma IsEmpty_iff_no_node_witness :
  is_list store_123 1 nodes_123 3 ∧
  size_matches nodes_123 3 ∧
  (∃ (b : bool) (first : BasicIterator),
     IsEmpty 1 store_123 = Some (b, store_123)
     ∧ begin 1 store_123 = Some (first, store_123)
       ∧ (b = true ↔ nodes_123 = []) ∧ (b = true ↔ iter_eqb first end_ = true)).
Proof.
  assert (H1 : is_list store_123 1 nodes_123 3).
  { show_is_list 0 (Some 2%positive). }
  assert (H2 : size_matches nodes_123 3).
  { reflexivity. }
  split; [exact H1|].
  split; [exact H2|].
  exact (IsEmpty_iff_no_node store_123 1%positive nodes_123 3 H1 H2).
Defined.

Lemma ctor_copy_dtor_roundtrip_witness :
  is_list store_123 1 nodes_123 3 ∧
  (length nodes_123 < 4)%nat ∧
  (∃ (this : addr) (m1 : gmap addr (Obj Z)),
     ctor_copy 0 4 1 store_123 = Some (this, m1) ∧ dtor 4 this m1 = Some ((), store_123)).
Proof.
  assert (H1 : is_list store_123 1 nodes_123 3).
  { show_is_list 0 (Some 2%positive). }
  assert (H2 : (length nodes_123 < 4)%nat).
  { simpl; lia. }
  split; [exact H1|].
  split; [exact H2|].
  exact (ctor_copy_dtor_roundtrip 0 store_123 1%positive nodes_123 3 4%nat H1 H2).
Defined.

Lemma ctor_initializer_list_dtor_roundtrip_witness :
  (length [1; 2; 3] < 4)%nat ∧
  (∃ (this : addr) (m1 : gmap addr (Obj Z)),
     ctor_initializer_list 0 4 [1; 2; 3] (∅ : gmap addr (Obj Z)) = Some (this, m1)
     ∧ dtor 4 this m1 = Some ((), ∅ : gmap addr (Obj Z))).
Proof.
  assert (H1 : (length [1; 2; 3] < 4)%nat).
  { simpl; lia. }
  split; [exact H1|].
  exact (ctor_initializer_list_dtor_roundtrip 0 (∅ : gmap addr (Obj Z)) [1; 2; 3] 4%nat
           H1).
Defined.
